(** * QWWAD scattering-rate kernels: a shallow embedding

    The development follows three translation units of the repository:
    - [qwwad/file-io.cpp]: the input-validation checks;
    - [srcc.cpp]: carrier-carrier scattering (form-factor accumulators,
      screening integral, lookup tables, the theta quadrature step);
    - [srelo.cpp]: carrier-LO-phonon scattering (wave-vector grid and the
      energy-conservation gate).

    Conventions.  A C [double] is a real number: rounding and overflow are
    not represented.  Two IEEE effects are represented: a square root of a
    negative number is a NaN, which fails every comparison ([c_sqrt]), and,
    in the theta step of [srcc.cpp] and in the integrand and the rates of
    [srelo.cpp], a division by zero is an infinity or a NaN ([c_div]).  A
    double that may fail to be a number has type [dbl].
    [unsigned int] is an integer taken modulo [2^32]; the cast of a
    [size_t] to [float] rounds to 24 significant bits ([float_of_size_t]);
    an [unsigned int] becomes a [double] without change.  Arrays
    ([std::valarray], C tables) are lists; a read outside a C table is the
    outcome [OutOfBounds].  [exit] inside a helper is the outcome [Fatal]. *)

From Stdlib Require Import String Ascii.
From stdpp Require Import list sorting.
From Stdlib Require Import Reals Lra Lia ZArith.

Local Open Scope R_scope.

(** ** Comparisons on doubles, as the booleans the C conditions compute *)

Definition dlt (x y : R) : bool := if Rlt_dec x y then true else false.
Definition dle (x y : R) : bool := if Rle_dec x y then true else false.
Definition dgt (x y : R) : bool := dlt y x.
Definition dge (x y : R) : bool := dle y x.

(** ** Physical constants

    [qclsim-constants.h] and [qwwad/constants.h] are not part of the sources
    at hand; their values enter as parameters of which only the sign is
    used. *)

Class Constants : Type := {
  hBar : R;   (* reduced Planck constant [J s] *)
  kB   : R;   (* Boltzmann constant [J/K]      *)
  e    : R;   (* elementary charge [C]         *)
  hBar_pos : 0 < hBar;
  kB_pos   : 0 < kB;
  e_pos    : 0 < e
}.

Definition pi : R := PI.

(** CODATA values, in SI units, for concrete evaluations. *)
Definition SI : Constants.
Proof.
  refine {| hBar := 1.054571726e-34;
            kB   := 1.3806488e-23;
            e    := 1.602176565e-19 |}; lra.
Defined.

(** ** Subband *)

(** Modelled from the spec: the [Subband] class ([qclsim-subband.h]) is an
    external collaborator whose code is not at hand.  Only the accessors the
    kernels call are kept, each as a parameter: band-edge energy, band-edge
    effective mass, Fermi energy, the wave-vector of an energy [k], the
    kinetic energy of a wave-vector [Ek] and the Fermi-Dirac occupation at a
    wave-vector and a temperature. *)
Record Subband : Type := {
  get_E    : R;
  get_md_0 : R;
  get_Ef   : R;
  k        : R -> R;
  Ek       : R -> R;
  f_FD_k   : R -> R -> R
}.

(** [gsl_pow_2] of the GNU Scientific Library. *)
Definition gsl_pow_2 (x : R) : R := x * x.

(** The value of [(float)n] for a [size_t n]: [n] itself below [2^24], and
    above it the nearest multiple of the spacing of the floats around [n],
    ties going to the even significand. *)
Definition round_to_float (n : Z) : Z :=
  if (n <? 2 ^ 24)%Z then n
  else
    let shift := (Z.log2 n - 23)%Z in
    let q := (n / 2 ^ shift)%Z in
    let r := (n mod 2 ^ shift)%Z in
    let half := (2 ^ (shift - 1))%Z in
    let q := if (r <? half)%Z then q
             else if (half <? r)%Z then (q + 1)%Z
             else if Z.even q then q else (q + 1)%Z in
    (q * 2 ^ shift)%Z.

Definition float_of_size_t (n : nat) : R := IZR (round_to_float (Z.of_nat n)).

(** A [std::valarray<double>] read at an index; the kernels only read inside
    the array, where the default is never returned. *)
Definition rd (v : list R) (i : nat) : R := nth i v 0.

(** Sum of the numbers of a list. *)
Definition Rsum (l : list R) : R := foldr Rplus 0 l.

(** ** Doubles that are not numbers *)

(** A double that may fail to be a number: [None] is a NaN or, after a
    division by zero, an infinity. *)
Definition dbl : Type := option R.

(** [sqrt] of the C library: a NaN on a negative argument. *)
Definition c_sqrt (x : R) : dbl := if dle 0 x then Some (sqrt x) else None.

(** The quotient [x / y] of two numbers: an infinity when the divisor alone
    is zero, a NaN when both are zero. *)
Inductive quotient : Type :=
| QNum (q : R)
| QInf
| QNaN.

Definition c_div (x y : R) : quotient :=
  if Req_dec_T y 0
  then if Req_dec_T x 0 then QNaN else QInf
  else QNum (x / y).

(** A quotient that goes on into sums and products with numbers: these keep
    an infinity or a NaN from being a number again. *)
Definition number (q : quotient) : dbl :=
  match q with
  | QNum x => Some x
  | QInf | QNaN => None
  end.

(** ** qwwad/file-io.cpp *)

Module FileIO.

(** What is streamed into the [std::ostringstream]: literal text and
    the offending number. *)
Inductive piece : Type :=
| Text (s : string)
| Num (x : R).

Inductive exception : Type :=
| domain_error (what : list piece).

(** A [void] check either returns, leaving the checked cell with the value
    carried by [Return], or throws. *)
Inductive result : Type :=
| Return (cell : R)
| Throw (ex : exception).

Definition check_c_interval_0_1 (px : R) : result :=
  if dlt px 0 || dgt px 1
  then Throw (domain_error
                [Text "Value ("; Num px;
                 Text ") lies outside the closed interval [0,1]."])
  else Return px.

Definition check_positive (pW : R) : result :=
  if dle pW 0
  then Throw (domain_error
                [Text "Nonpositive value ("; Num pW; Text ") detected."])
  else Return pW.

Definition check_not_negative (pW : R) : result :=
  if dlt pW 0
  then Throw (domain_error
                [Text "Negative value ("; Num pW; Text ") detected."])
  else Return pW.

Definition throws (r : result) : Prop := exists ex, r = Throw ex.

(** The message of a thrown exception contains the number [x]. *)
Definition names_value (r : result) (x : R) : Prop :=
  forall ex, r = Throw ex ->
    match ex with domain_error what => In (Num x) what end.

End FileIO.

(** ** srcc.cpp *)

Module Srcc.

(** An entry of a lookup table: [a] is the wave-vector, [b] the tabulated
    value ([struct.h]). *)
Record data11 : Type := { a : R; b : R }.

(** How a helper ends: with a value, by [exit] after printing a message, or
    by reading a table outside its storage. *)
Inductive outcome (A : Type) : Type :=
| Value (x : A)
| Fatal (msg : string) (status : Z)
| OutOfBounds.
Arguments Value {A} x.
Arguments Fatal {A} msg status.
Arguments OutOfBounds {A}.

#[export] Instance outcome_bind : MBind outcome := fun A B f o =>
  match o with
  | Value x => f x
  | Fatal msg status => Fatal msg status
  | OutOfBounds => OutOfBounds
  end.

Section Kernel.
Context {C : Constants}.

(** *** Form-factor accumulators *)

Definition find_exp_qz (q : R) (z : list R) : list R :=
  map (fun zi => exp (q * (zi - rd z 0))) z.

Definition find_Cif_p (psi_if exp_qz z : list R) : list R :=
  let nz := length z in
  let Cif_p := replicate nz 0 in
  let dz := rd z 1 - rd z 0 in
  let Cif_p := <[(nz - 1)%nat := rd psi_if (nz - 1) / rd exp_qz (nz - 1) * dz]> Cif_p in
  foldl (fun Cif_p iz =>
           <[iz := rd Cif_p (iz + 1) + rd psi_if iz / rd exp_qz iz * dz]> Cif_p)
        Cif_p (rev (seq 0 (nz - 1))).

Definition find_Cif_m (psi_if exp_qz z : list R) : list R :=
  let nz := length z in
  let Cif_m := replicate nz 0 in
  let dz := rd z 1 - rd z 0 in
  let Cif_m := <[0%nat := 0]> Cif_m in
  foldl (fun Cif_m iz =>
           <[iz := rd Cif_m (iz - 1) + rd psi_if (iz - 1) * rd exp_qz (iz - 1) * dz]> Cif_m)
        Cif_m (seq 1 (nz - 1)).

Definition Iif (iz0 : nat) (Cif_p Cif_m exp_qz : list R) : R :=
  rd Cif_m iz0 / rd exp_qz iz0 + rd Cif_p iz0 * rd exp_qz iz0.

(** The matrix element at grid point [iz0] the way [A] obtains it. *)
Definition Iif_fast (z psi_jg : list R) (q_perp : R) (iz0 : nat) : R :=
  let expTerm := find_exp_qz q_perp z in
  let Cjg_plus := find_Cif_p psi_jg expTerm z in
  let Cjg_minus := find_Cif_m psi_jg expTerm z in
  Iif iz0 Cjg_plus Cjg_minus expTerm.

(** The reference the accumulators replace: the rectangle-rule sum of
    [psi_jg(z) exp(-q |z - z'|) dz] over the whole grid. *)
Definition Iif_bruteforce (z psi_jg : list R) (q_perp : R) (iz0 : nat) : R :=
  let dz := rd z 1 - rd z 0 in
  Rsum (map (fun iz => rd psi_jg iz * exp (- q_perp * Rabs (rd z iz - rd z iz0)) * dz)
            (seq 0 (length z))).

(** A grid with a constant positive step. *)
Definition uniform_grid (z : list R) : Prop :=
  0 < rd z 1 - rd z 0 /\
  forall i, (i < length z)%nat -> rd z i = rd z 0 + INR i * (rd z 1 - rd z 0).

(** *** Screening integral *)

Definition dmu : R := 1e-3 * e.

(** The low-temperature polarizability at the wave-vector [ki] of the current
    energy sample.  With [0 <= ki] the square root is taken of a number of
    [(0,1]]. *)
Definition P0_at (m q_perp ki : R) : R :=
  let P0 := m / (pi * hBar * hBar) in
  if dgt q_perp (2 * ki)
  then P0 - m / (pi * hBar * hBar) * sqrt (1 - gsl_pow_2 (2 * ki / q_perp))
  else P0.

(** The increment [dI] of one pass of the loop, at energy [mu]. *)
Definition dI_at (isb : Subband) (q_perp T mu : R) : R :=
  let m := get_md_0 isb in
  let ki := k isb mu in
  P0_at m q_perp ki
  / (4 * kB * T * gsl_pow_2 (cosh ((get_Ef isb - mu) / (2 * kB * T)))).

(** The [do ... while] loop.  [fuel] bounds the number of passes the model
    may take ([None]: not finished within [fuel] passes); [iterations]
    counts the passes taken and is not a variable of the C code. *)
Fixpoint PI_loop (fuel : nat) (isb : Subband) (q_perp T mu integral : R)
    (iterations : nat) : option (R * nat) :=
  match fuel with
  | O => None
  | S fuel =>
      let dI := dI_at isb q_perp T mu in
      let integral := integral + dI * dmu in
      let mu := mu + dmu in
      if dgt dI (integral / 100)
      then PI_loop fuel isb q_perp T mu integral (S iterations)
      else Some (integral, S iterations)
  end.

Definition PI_run (fuel : nat) (isb : Subband) (q_perp T : R) : option (R * nat) :=
  PI_loop fuel isb q_perp T (get_E isb) 0 0.

Definition PI (fuel : nat) (isb : Subband) (q_perp T : R) : option R :=
  fst <$> PI_run fuel isb q_perp T.

(** The energy, the increment and the running sum of pass number [n]
    (counted from 0), in closed form. *)
Definition mu_seq (isb : Subband) (n : nat) : R := get_E isb + INR n * dmu.

Definition dI_seq (isb : Subband) (q_perp T : R) (n : nat) : R :=
  dI_at isb q_perp T (mu_seq isb n).

(** The sum of the first [p] increments, each times the step. *)
Definition partial_integral (isb : Subband) (q_perp T : R) (p : nat) : R :=
  Rsum (map (fun j => dI_seq isb q_perp T j * dmu) (seq 0 p)).

Definition integral_seq (isb : Subband) (q_perp T : R) (n : nat) : R :=
  partial_integral isb q_perp T (S n).

(** The base term as the specification words it: reduced when [q < 2k]. *)
Definition P0_spec (m q_perp ki : R) : R :=
  let P0 := m / (pi * hBar * hBar) in
  if dlt q_perp (2 * ki)
  then P0 - m / (pi * hBar * hBar) * sqrt (1 - gsl_pow_2 (2 * ki / q_perp))
  else P0.

(** *** Lookup tables *)

Definition newline : string := String "010"%char EmptyString.

(** The entry [*(table + i)]. *)
Definition entry (table : list data11) (i : Z) : outcome data11 :=
  if (i <? 0)%Z then OutOfBounds
  else match table !! Z.to_nat i with
       | Some en => Value en
       | None => OutOfBounds
       end.

(** The scan [while(q_perp >= (table+iq)->a) iq++], by recursion on the
    entries from index [iq] on: when none is left the next read is outside
    the table. *)
Fixpoint scan (from_iq : list data11) (q_perp : R) (iq : Z) : outcome Z :=
  match from_iq with
  | [] => OutOfBounds
  | en :: rest =>
      if dge q_perp (a en) then scan rest q_perp (iq + 1) else Value iq
  end.

Definition lookup_ff (Aijfg : list data11) (q_perp : R) (nq : nat) : outcome R :=
  last ← entry Aijfg (Z.of_nat nq - 1);
  if dgt q_perp (a last)
  then Fatal ("q_perp>maximum allowed q!" ++ newline) 0
  else
    iq ← scan Aijfg q_perp 0;
    lo ← entry Aijfg (iq - 1);
    hi ← entry Aijfg iq;
    Value (b lo + (b hi - b lo) * (q_perp - a lo) / (a hi - a lo)).

Definition lookup_PI (PIii : list data11) (q_perp : R) (nq : nat) : outcome R :=
  last ← entry PIii (Z.of_nat nq - 1);
  if dgt q_perp (a last)
  then Fatal ("q_perp>maximum allowed q!" ++ newline) 0
  else
    iq ← scan PIii q_perp 0;
    lo ← entry PIii (iq - 1);
    hi ← entry PIii iq;
    Value (b lo + (b hi - b lo) * (q_perp - a lo) / (a hi - a lo)).

(** A table with strictly increasing wave-vectors. *)
Definition increasing (table : list data11) : Prop :=
  StronglySorted (fun en en' => a en < a en') table.

(** The linear interpolation between two entries. *)
Definition interpolate (lo hi : data11) (q_perp : R) : R :=
  b lo + (b hi - b lo) * (q_perp - a lo) / (a hi - a lo).

(** *** The transition loop of [main] *)

(** [unsigned int] addition. *)
Definition uint_add (x y : Z) : Z := ((x + y) mod 2 ^ 32)%Z.

Definition Deltak0sqr (m : R) (i j f g : Z) (Ei Ej Ef Eg : R) : R :=
  if negb (uint_add i j =? uint_add f g)%Z
  then 4 * m * (Ei + Ej - Ef - Eg) / (hBar * hBar)
  else 0.

(** The argument of the square root, [4 q_perp^2], at one theta sample; a
    NaN when [kij*kij+Deltak0sqr] is negative. *)
Definition q_perpsqr4 (kij Deltak0sqr theta : R) : dbl :=
  s ← c_sqrt (kij * kij + Deltak0sqr);
  Some (2 * kij * kij + Deltak0sqr - 2 * kij * s * cos theta).

(** The guarded update of [Wijfg] at one theta sample, given the computed
    [q_perpsqr4], which is a NaN when it is not a number; [P] is the
    occupation at [kj].  The three lookups are taken from left to right.
    The update divides twice.  The screening term divides by
    [4*pi*epsilon]: where that is zero the term is an infinity and so is
    its sum with [q_perp], the form factor divided by the sum is zero and
    [Wijfg] gets zero added; unless the term is [0/0], a NaN, which [Wijfg]
    then is too.  The form factor is divided by the sum of [q_perp] and the
    screening term: where that sum is zero the quotient is an infinity or a
    NaN, and so is [Wijfg] from then on. *)
Definition theta_update (Aijfg PIii : list data11) (nq : nat)
    (epsilon P kj : R) (q_perpsqr4 : dbl) (Wijfg : R) : outcome dbl :=
  match q_perpsqr4 with
  | Some d =>
      if dge d 0 then
        match c_sqrt d with
        | Some root =>
            let q_perp := root / 2 in
            ff ← lookup_ff Aijfg q_perp nq;
            sc ← lookup_PI PIii q_perp nq;
            ff' ← lookup_ff Aijfg q_perp nq;
            Value
              match c_div (2 * pi * e * e * sc * ff') (4 * pi * epsilon) with
              | QNum screening =>
                  ratio ← number (c_div ff (q_perp + screening));
                  Some (Wijfg + gsl_pow_2 ratio * P * kj)
              | QInf => Some (Wijfg + gsl_pow_2 0 * P * kj)
              | QNaN => None
              end
        | None => Value None
        end
      else Value (Some Wijfg)
  | None => Value (Some Wijfg)
  end.

Definition theta_step (Aijfg PIii : list data11) (nq : nat)
    (epsilon Deltak0sqr P kj kij theta : R) (Wijfg : R) : outcome dbl :=
  theta_update Aijfg PIii nq epsilon P kj (q_perpsqr4 kij Deltak0sqr theta) Wijfg.

(** *** The quadrature of [main] and the tables *)

(** The length of the difference of the two in-plane wave-vectors at angle
    [alpha]; a NaN if the argument of the square root were negative. *)
Definition kij_of (ki kj alpha : R) : dbl :=
  c_sqrt (ki * ki + kj * kj - 2 * ki * kj * cos alpha).

(** The largest wave-vector of the form-factor table. *)
Definition q_perp_max (kimax kjmax Deltak0sqr : R) : dbl :=
  s ← c_sqrt (gsl_pow_2 (kimax + kjmax) + Deltak0sqr);
  root ← c_sqrt (2 * gsl_pow_2 (kimax + kjmax) + Deltak0sqr
                 + 2 * (kimax + kjmax) * s);
  Some (root / 2).

(** Modelled from the spec: a subband "owns an ordered spatial grid and a
    wavefunction sample array aligned to that grid"; [z_array] and
    [psi_array] are the two accessors of the [Subband] class for them. *)
Record state : Type := {
  sb        : Subband;
  z_array   : list R;
  psi_array : list R
}.

(** The overlap integral over all four states.  [integral], the numerical
    integration helper of the maths library, is a parameter. *)
Definition A (integral : list R -> R -> R) (q_perp : R)
    (isb jsb fsb gsb : state) : R :=
  let z := z_array isb in
  let nz := length z in
  let dz := rd z 1 - rd z 0 in
  let psi_if := zip_with Rmult (psi_array isb) (psi_array fsb) in
  let psi_jg := zip_with Rmult (psi_array jsb) (psi_array gsb) in
  let expTerm := find_exp_qz q_perp z in
  let Cjg_plus := find_Cif_p psi_jg expTerm z in
  let Cjg_minus := find_Cif_m psi_jg expTerm z in
  let Aijfg_integrand :=
    map (fun iz => rd psi_if iz * Iif iz Cjg_plus Cjg_minus expTerm)
        (seq 0 nz) in
  integral Aijfg_integrand dz.

(** [V.max()]. *)
Definition valarray_max (V : list R) : R := foldr Rmax (rd V 0) V.

(** The entries written by the loop of [ff_table], given the computed
    [q_perp_max]. *)
Definition ff_entries (integral : list R -> R -> R) (q_perp_max : R)
    (isb jsb fsb gsb : state) (nq : nat) : list data11 :=
  let dq := q_perp_max / float_of_size_t (nq - 1) in
  map (fun iq =>
         let q_perp := dq * float_of_size_t iq in
         {| a := q_perp; b := A integral q_perp isb jsb fsb gsb |})
      (seq 0 nq).

(** [ff_table]; [None] stands for the table of NaNs written when
    [q_perp_max] is a NaN.  A failing [calloc] is not represented. *)
Definition ff_table (integral : list R -> R -> R) (Deltak0sqr : R)
    (isb jsb fsb gsb : state) (V : list R) (nq : nat) : option (list data11) :=
  let vmax := valarray_max V in
  let kimax := k (sb isb) (vmax - get_E (sb isb)) in
  let kjmax := k (sb jsb) (vmax - get_E (sb jsb)) in
  q_max ← q_perp_max kimax kjmax Deltak0sqr;
  Some (ff_entries integral q_max isb jsb fsb gsb nq).

(** The loop of [PI_table] over the indices [iqs]; [None]: some screening
    integral did not finish within [fuel] passes. *)
Fixpoint PI_table_from (fuel : nat) (Aijfg : list data11) (isb : Subband)
    (T : R) (S_flag : bool) (iqs : list nat) : option (outcome (list data11)) :=
  match iqs with
  | [] => Some (Value [])
  | iq :: iqs =>
      match entry Aijfg (Z.of_nat iq) with
      | Value en =>
          let q_perp := a en in
          match (if S_flag then PI fuel isb q_perp T else Some 0) with
          | Some screening =>
              match PI_table_from fuel Aijfg isb T S_flag iqs with
              | Some (Value PIii) =>
                  Some (Value ({| a := a en; b := screening |} :: PIii))
              | other => other
              end
          | None => None
          end
      | Fatal msg status => Some (Fatal msg status)
      | OutOfBounds => Some OutOfBounds
      end
  end.

Definition PI_table (fuel : nat) (Aijfg : list data11) (isb : Subband)
    (T : R) (nq : nat) (S_flag : bool) : option (outcome (list data11)) :=
  PI_table_from fuel Aijfg isb T S_flag (seq 0 nq).

End Kernel.
End Srcc.

(** ** dos-functions.cpp *)

Module Dos.
Section Dos.
Context {C : Constants}.

(** The density of states of one subband of a quantum well. *)
Definition dos_1sb (mass E_carrier V alpha : R) : R :=
  mass / (pi * gsl_pow_2 hBar)
  + mass * alpha * (2 * E_carrier - V) / (pi * gsl_pow_2 hBar).

Definition calculate_dos_2D (mass E_carrier : R) (E_subbands : list R)
    (V alpha : R) : R :=
  let dos_1sb := dos_1sb mass E_carrier V alpha in
  let nsb := length E_subbands in
  foldl (fun dos_total isb =>
           if dgt E_carrier (rd E_subbands isb)
           then dos_total + dos_1sb
           else dos_total)
        0 (seq 0 nsb).

Definition calculate_dos_1D (mass E_carrier : R) (E_subbands : list R) : R :=
  let nsb := length E_subbands in
  foldl (fun dos_total isb =>
           if dgt E_carrier (rd E_subbands isb)
           then dos_total
                + sqrt (2 * mass) / hBar
                  / (pi * sqrt (E_carrier - rd E_subbands isb))
           else dos_total)
        0 (seq 0 nsb).

(** The subband minima strictly below the carrier energy. *)
Definition occupied (E_carrier : R) (E_subbands : list R) : list R :=
  List.filter (fun E_sb => dgt E_carrier E_sb) E_subbands.

End Dos.
End Dos.

(** ** srelo.cpp *)

Module Srelo.

(** Modelled from the spec: [Theta], the step function of the maths helpers,
    whose code is not at hand.  The specification has the rate zeroed
    "unless the resulting final kinetic energy is non-negative (a step
    function, not a smooth cutoff)". *)
Definition Theta (x : R) : R := if dge x 0 then 1 else 0.

(** What [main] has fixed before the loop over the initial wave-vector:
    options, pre-factors, screening length and phonon wave-vector step. *)
Record setup : Type := {
  m              : R;
  Te             : R;
  Ephonon        : R;
  b_flag         : bool;
  S_flag         : bool;
  nki            : nat;
  nKz            : nat;
  dKz            : R;
  lambda_s_sq    : R;
  Upsilon_star_a : R;
  Upsilon_star_e : R
}.

Section Kernel.
Context {C : Constants}.

(** The numerical integration helper of the maths library, not at hand:
    any function of the samples and the step. *)
Variable integral : list R -> R -> R.

Variable cfg : setup.
Variables isb fsb : Subband.

Definition Delta_a : R := get_E fsb - get_E isb - Ephonon cfg.
Definition Delta_e : R := get_E fsb - get_E isb + Ephonon cfg.

(** *** The grid of initial wave-vectors *)

Definition dki (kimax : R) : R := kimax / float_of_size_t (nki cfg).

Definition ki_at (kimax : R) (iki : nat) : R := dki kimax * INR iki.

Definition ki_grid (kimax : R) : list R :=
  map (ki_at kimax) (seq 0 (nki cfg)).

(** *** One pass of the loop over [ki] *)

(** [Kz_2], screened if wanted.  The screening divides by [Kz_2] and by its
    square: where [Kz_2] is zero the two quotients are infinities or NaNs,
    and their sum times [Kz_2 = 0] is a NaN. *)
Definition Kz_2_at (Kz : list R) (iKz : nat) : dbl :=
  let Kz_2 := rd Kz iKz * rd Kz iKz in
  if S_flag cfg && negb (iKz =? 0)%nat
  then
    by_Kz_2 ← number (c_div (2 * lambda_s_sq cfg) Kz_2);
    by_Kz_4 ← number (c_div (lambda_s_sq cfg * lambda_s_sq cfg) (Kz_2 * Kz_2));
    Some (Kz_2 * (1 + by_Kz_2 + by_Kz_4))
  else Some Kz_2.

(** The argument of the square root of the integrand, for the mechanism
    with energy mismatch [Delta]. *)
Definition radicand (Kz_2 ki Delta : R) : R :=
  let Kz_4 := Kz_2 * Kz_2 in
  Kz_4 + 2 * Kz_2 * (2 * ki * ki - 2 * m cfg * Delta / (hBar * hBar))
  + gsl_pow_2 (2 * m cfg * Delta / (hBar * hBar)).

(** One sample of the integrand over the phonon wave-vector: the form
    factor divided by the square root, an infinity or a NaN where the root
    is zero. *)
Definition integrand_dKz (Kz Gifsqr : list R) (ki Delta : R) (iKz : nat) : dbl :=
  Kz_2 ← Kz_2_at Kz iKz;
  root ← c_sqrt (radicand Kz_2 ki Delta);
  number (c_div (rd Gifsqr iKz) root).

(** The array [Waif_integrand_dKz] or [Weif_integrand_dKz]. *)
Definition integrand_samples (Kz Gifsqr : list R) (ki Delta : R) : list dbl :=
  map (integrand_dKz Kz Gifsqr ki Delta) (seq 0 (nKz cfg)).

(** The samples of an integrand when all of them are numbers. *)
Fixpoint numbers (y : list dbl) : option (list R) :=
  match y with
  | [] => Some []
  | Some x :: rest => cons x <$> numbers rest
  | None :: _ => None
  end.

(** Modelled from the spec: the integration helper on samples that may fail
    to be numbers.  Its code is not at hand.  The specification has the
    kernel "integrate the form factor divided by each denominator over the
    phonon-wavevector axis", on a uniform grid: a weighted sum of all the
    samples.  On numbers it is the parameter [integral]; one sample that is
    an infinity or a NaN is taken to make the result an infinity or a
    NaN. *)
Definition integral_of (y : list dbl) (dx : R) : dbl :=
  samples ← numbers y; Some (integral samples dx).

(** The pair [(Waif[iki], Weif[iki])] written to the output files for the
    wave-vector [ki].  A rate that is an infinity or a NaN stays one through
    every product with a number; times zero it is a NaN. *)
Definition rates_at (Kz Gifsqr : list R) (ki : R) : dbl * dbl :=
  let Waif_integrand_dKz := integrand_samples Kz Gifsqr ki Delta_a in
  let Weif_integrand_dKz := integrand_samples Kz Gifsqr ki Delta_e in
  let Waif :=
    (fun I => Upsilon_star_a cfg * pi * I)
      <$> integral_of Waif_integrand_dKz (dKz cfg) in
  let Weif :=
    (fun I => Upsilon_star_e cfg * pi * I)
      <$> integral_of Weif_integrand_dKz (dKz cfg) in
  let Eki := Ek isb ki in
  let Ef_em := Eki - Delta_e in
  let Ef_ab := Eki - Delta_a in
  let Weif := (fun W => W * Theta Ef_em) <$> Weif in
  let Waif := (fun W => W * Theta Ef_ab) <$> Waif in
  let Weif :=
    if b_flag cfg then
      if dge Ef_em 0
      then (fun W =>
              W * (1 - f_FD_k fsb (sqrt (Ef_em * 2 * m cfg) / hBar) (Te cfg)))
             <$> Weif
      else Weif
    else Weif in
  let Waif :=
    if b_flag cfg then
      if dge Ef_ab 0
      then (fun W =>
              W * (1 - f_FD_k fsb (sqrt (Ef_ab * 2 * m cfg) / hBar) (Te cfg)))
             <$> Waif
      else Waif
    else Waif in
  (Waif, Weif).

(** *** What [main] computes before the loops *)

(** The Bose-Einstein factor of the phonon at lattice temperature [Tl]. *)
Definition N0 (Tl : R) : R := 1 / (exp (Ephonon cfg / (kB * Tl)) - 1).

(** The pre-factor of the rates, for the phonon number [N] ([N0] for
    absorption, [N0 + 1] for emission). *)
Definition Upsilon_star (epsilon_s epsilon_inf N : R) : R :=
  let omega_0 := Ephonon cfg / hBar in
  pi * e * e * omega_0 / epsilon_s * (epsilon_s / epsilon_inf - 1) * N
  * 2 * m cfg / gsl_pow_2 hBar * 2 / (8 * pi * pi * pi).

Definition Upsilon_star_a_of (epsilon_s epsilon_inf Tl : R) : R :=
  Upsilon_star epsilon_s epsilon_inf (N0 Tl).

Definition Upsilon_star_e_of (epsilon_s epsilon_inf Tl : R) : R :=
  Upsilon_star epsilon_s epsilon_inf (N0 Tl + 1).

(** The screening length squared; [f_FD], the occupation of a subband at an
    energy and a temperature, is an accessor of the [Subband] class and a
    parameter here. *)
Definition lambda_s_sq_of (f_FD : Subband -> R -> R -> R) (epsilon_s : R)
    (subbands : list Subband) : R :=
  if S_flag cfg then
    foldl (fun lambda_s_sq jsb =>
             let Ej := get_E jsb in
             lambda_s_sq + sqrt (2 * m cfg * Ej) * m cfg * f_FD jsb Ej (Te cfg))
          0 subbands
    * (e * e / (pi * pi * hBar * hBar * hBar * epsilon_s))
  else 0.

(** The cutoff of the kinetic energy in the initial subband: from the
    option [Ecutoff] in meV when it is given ([Some]), and otherwise from
    [k_max], the value of the accessor [get_k_max(Te)] of the initial
    subband. *)
Definition Ecutoff_of (option_Ecutoff : option R) (k_max : R) : R :=
  let Ei := get_E isb in
  let Ef := get_E fsb in
  match option_Ecutoff with
  | Some meV =>
      let Ecutoff := meV * e / 1000 in
      if dlt (Ecutoff + Ei - Ephonon cfg) Ef then Ecutoff + Ef else Ecutoff
  | None =>
      let kimax := k_max in
      let Ecutoff := hBar * hBar * kimax * kimax / (2 * m cfg) in
      if dlt (Ecutoff + Ei) Ef then Ecutoff + Ef else Ecutoff
  end.

(** The arrays [Waif] and [Weif] after the loop over [ki]. *)
Definition Waif (Kz Gifsqr : list R) (kimax : R) : list dbl :=
  map (fun iki => fst (rates_at Kz Gifsqr (ki_at kimax iki))) (seq 0 (nki cfg)).

Definition Weif (Kz Gifsqr : list R) (kimax : R) : list dbl :=
  map (fun iki => snd (rates_at Kz Gifsqr (ki_at kimax iki))) (seq 0 (nki cfg)).

End Kernel.
End Srelo.

(** The setup [cfg] with final-state blocking switched on or off. *)
Definition with_blocking (cfg : Srelo.setup) (blocking : bool) : Srelo.setup :=
  {| Srelo.m := Srelo.m cfg; Srelo.Te := Srelo.Te cfg;
     Srelo.Ephonon := Srelo.Ephonon cfg;
     Srelo.b_flag := blocking; Srelo.S_flag := Srelo.S_flag cfg;
     Srelo.nki := Srelo.nki cfg; Srelo.nKz := Srelo.nKz cfg;
     Srelo.dKz := Srelo.dKz cfg; Srelo.lambda_s_sq := Srelo.lambda_s_sq cfg;
     Srelo.Upsilon_star_a := Srelo.Upsilon_star_a cfg;
     Srelo.Upsilon_star_e := Srelo.Upsilon_star_e cfg |}.

(** ** Concrete inputs for evaluations *)

(** A run with one sample of each wave-vector, blocking and screening on. *)
Definition single_sample : Srelo.setup :=
  {| Srelo.m := 1; Srelo.Te := 300; Srelo.Ephonon := 1 / 2;
     Srelo.b_flag := true; Srelo.S_flag := true;
     Srelo.nki := 1; Srelo.nKz := 1; Srelo.dKz := 1;
     Srelo.lambda_s_sq := 1;
     Srelo.Upsilon_star_a := 1; Srelo.Upsilon_star_e := 1 |}.

(** The same run with one sample more than [2^24]. *)
Definition many_samples : Srelo.setup :=
  {| Srelo.m := 1; Srelo.Te := 300; Srelo.Ephonon := 1 / 2;
     Srelo.b_flag := true; Srelo.S_flag := true;
     Srelo.nki := Z.to_nat 16777217; Srelo.nKz := 1; Srelo.dKz := 1;
     Srelo.lambda_s_sq := 1;
     Srelo.Upsilon_star_a := 1; Srelo.Upsilon_star_e := 1 |}.

(** A run without screening and with two phonon wave-vectors, 0 and 1, in
    units where [hBar^2/2m] is [3/2]: for a transition one unit of energy
    upwards, whose emission mismatch [Delta_e] is [3/2], the term
    [2 m Delta_e / hBar^2] is 1, the square of the second phonon
    wave-vector. *)
Definition singular_sample : Srelo.setup :=
  {| Srelo.m := @hBar SI * @hBar SI / 3; Srelo.Te := 300;
     Srelo.Ephonon := 1 / 2;
     Srelo.b_flag := true; Srelo.S_flag := false;
     Srelo.nki := 1; Srelo.nKz := 2; Srelo.dKz := 1;
     Srelo.lambda_s_sq := 0;
     Srelo.Upsilon_star_a := 1; Srelo.Upsilon_star_e := 1 |}.

(** A state on the grid [0, 1, 2] with a flat wave-function, in a subband
    whose wave-vector is 1 at every energy. *)
Definition flat_state : Srcc.state :=
  {| Srcc.sb := {| get_E := 0; get_md_0 := 1; get_Ef := 0;
                   k := fun _ => 1; Ek := fun k => k * k;
                   f_FD_k := fun _ _ => 1 / 2 |};
     Srcc.z_array := [0; 1; 2];
     Srcc.psi_array := [1; 1; 1] |}.

(** The largest wave-vector of the form-factor table for
    [kimax = kjmax = 1] and [Deltak0sqr = 0], as the code computes it. *)
Definition q_max_of_flat_state : R :=
  sqrt (2 * gsl_pow_2 (1 + 1) + 0 + 2 * (1 + 1) * sqrt (gsl_pow_2 (1 + 1) + 0)) / 2.

(** Two subbands one unit of energy apart, with parabolic dispersion in
    units where [hBar^2/2m = 1]. *)
Definition lower_subband : Subband :=
  {| get_E := 0; get_md_0 := 1; get_Ef := 0;
     k := sqrt; Ek := fun k => k * k; f_FD_k := fun _ _ => 1 / 2 |}.

Definition upper_subband : Subband :=
  {| get_E := 1; get_md_0 := 1; get_Ef := 1;
     k := sqrt; Ek := fun k => k * k; f_FD_k := fun _ _ => 1 / 2 |}.

(** * Properties *)

(** ** The comparisons decide the order of the reals *)

Lemma dlt_spec (x y : R) : dlt x y = true <-> x < y.
Proof. unfold dlt. destruct (Rlt_dec x y); split; intros; auto; discriminate. Qed.

Lemma dle_spec (x y : R) : dle x y = true <-> x <= y.
Proof. unfold dle. destruct (Rle_dec x y); split; intros; auto; discriminate. Qed.

Lemma dgt_spec (x y : R) : dgt x y = true <-> x > y.
Proof. unfold dgt. rewrite dlt_spec. reflexivity. Qed.

Lemma dge_spec (x y : R) : dge x y = true <-> x >= y.
Proof. unfold dge. rewrite dle_spec. split; lra. Qed.

Lemma dlt_false (x y : R) : dlt x y = false <-> y <= x.
Proof.
  unfold dlt. destruct (Rlt_dec x y); split; intros; try discriminate; lra.
Qed.

Lemma dle_false (x y : R) : dle x y = false <-> y < x.
Proof.
  unfold dle. destruct (Rle_dec x y); split; intros; try discriminate; lra.
Qed.

Lemma dgt_false (x y : R) : dgt x y = false <-> x <= y.
Proof. unfold dgt. apply dlt_false. Qed.

Lemma dge_false (x y : R) : dge x y = false <-> x < y.
Proof. unfold dge. apply dle_false. Qed.

(** ** Quotients *)

Lemma c_div_number (x y : R) : y <> 0 -> c_div x y = QNum (x / y).
Proof.
  intros Hy. unfold c_div. destruct (Req_dec_T y 0); [contradiction | reflexivity].
Qed.

Lemma c_div_by_zero (x : R) : number (c_div x 0) = None.
Proof.
  unfold c_div. destruct (Req_dec_T 0 0) as [_|H0]; [|lra].
  destruct (Req_dec_T x 0); reflexivity.
Qed.

(** Case analysis on every comparison of the goal. *)
Ltac dcases :=
  repeat match goal with
         | |- context [dlt ?x ?y] =>
             let E := fresh "E" in
             destruct (dlt x y) eqn:E;
             [apply dlt_spec in E | apply dlt_false in E]
         | |- context [dle ?x ?y] =>
             let E := fresh "E" in
             destruct (dle x y) eqn:E;
             [apply dle_spec in E | apply dle_false in E]
         | |- context [dgt ?x ?y] =>
             let E := fresh "E" in
             destruct (dgt x y) eqn:E;
             [apply dgt_spec in E | apply dgt_false in E]
         | |- context [dge ?x ?y] =>
             let E := fresh "E" in
             destruct (dge x y) eqn:E;
             [apply dge_spec in E | apply dge_false in E]
         end.

(** ** Input validation *)

Section FileIO_checks.
Import FileIO.

Lemma check_c_interval_0_1_throws (x : R) :
  throws (check_c_interval_0_1 x) <-> x < 0 \/ x > 1.
Proof.
  unfold throws, check_c_interval_0_1.
  dcases; simpl; split; intros Hx; eauto; try lra;
    destruct Hx as [ex Hx]; discriminate.
Qed.

Lemma check_positive_throws (x : R) :
  throws (check_positive x) <-> x <= 0.
Proof.
  unfold throws, check_positive.
  dcases; split; intros Hx; eauto; try lra;
    destruct Hx as [ex Hx]; discriminate.
Qed.

Lemma check_not_negative_throws (x : R) :
  throws (check_not_negative x) <-> x < 0.
Proof.
  unfold throws, check_not_negative.
  dcases; split; intros Hx; eauto; try lra;
    destruct Hx as [ex Hx]; discriminate.
Qed.

Lemma checks_name_value (x : R) :
  names_value (check_c_interval_0_1 x) x /\
  names_value (check_positive x) x /\
  names_value (check_not_negative x) x.
Proof.
  unfold names_value, check_c_interval_0_1, check_positive, check_not_negative.
  repeat split; intros ex; dcases; simpl; intros Hex;
    try discriminate; injection Hex as <-; simpl; auto.
Qed.

Lemma checks_keep_value (x : R) :
  (~ throws (check_c_interval_0_1 x) -> check_c_interval_0_1 x = Return x) /\
  (~ throws (check_positive x) -> check_positive x = Return x) /\
  (~ throws (check_not_negative x) -> check_not_negative x = Return x).
Proof.
  unfold throws, check_c_interval_0_1, check_positive, check_not_negative.
  repeat split; dcases; simpl; intros Hn; auto; exfalso; apply Hn; eauto.
Qed.

(** C9. Each check throws a [domain_error] whose message contains the
    checked number exactly on the offending values: [check_c_interval_0_1]
    if and only if the number is below 0 or above 1 (0 and 1 themselves
    pass), [check_positive] if and only if it is [<= 0],
    [check_not_negative] if and only if it is [< 0]; a check that does not
    throw returns with the number as it was. *)
Theorem validation_checks :
  (forall x, throws (check_c_interval_0_1 x) <-> x < 0 \/ x > 1) /\
  check_c_interval_0_1 0 = Return 0 /\
  check_c_interval_0_1 1 = Return 1 /\
  (forall x, throws (check_positive x) <-> x <= 0) /\
  (forall x, throws (check_not_negative x) <-> x < 0) /\
  (forall x, names_value (check_c_interval_0_1 x) x /\
             names_value (check_positive x) x /\
             names_value (check_not_negative x) x) /\
  (forall x,
     (~ throws (check_c_interval_0_1 x) -> check_c_interval_0_1 x = Return x) /\
     (~ throws (check_positive x) -> check_positive x = Return x) /\
     (~ throws (check_not_negative x) -> check_not_negative x = Return x)).
Proof.
  split; [exact check_c_interval_0_1_throws|].
  split; [apply checks_keep_value; rewrite check_c_interval_0_1_throws; lra|].
  split; [apply checks_keep_value; rewrite check_c_interval_0_1_throws; lra|].
  split; [exact check_positive_throws|].
  split; [exact check_not_negative_throws|].
  split; [exact checks_name_value | exact checks_keep_value].
Qed.

End FileIO_checks.

(** ** Two facts on quotients *)

Lemma quotient_nonneg (x y : R) : 0 <= x -> 0 < y -> 0 <= x / y.
Proof.
  intros Hx Hy. unfold Rdiv. apply Rmult_le_pos; [exact Hx|].
  left. now apply Rinv_0_lt_compat.
Qed.

Lemma quotient_le_1 (x y : R) : x <= y -> 0 < y -> x / y <= 1.
Proof.
  intros Hx Hy. apply (Rmult_le_reg_r y); [exact Hy|].
  unfold Rdiv. rewrite Rmult_assoc, Rinv_l; lra.
Qed.

(** ** Lookup tables *)

Section Lookup.
Import Srcc.

(** The two lookups are the same code on different tables. *)
Lemma lookup_PI_ff : lookup_PI = lookup_ff.
Proof. reflexivity. Qed.

Lemma entry_lookup (table : list data11) (i : nat) (en : data11) :
  table !! i = Some en -> entry table (Z.of_nat i) = Value en.
Proof.
  intros Hi. unfold entry.
  destruct (Z.ltb_spec (Z.of_nat i) 0) as [Hneg|_]; [lia|].
  rewrite Nat2Z.id, Hi. reflexivity.
Qed.

Lemma entry_past_end (table : list data11) (i : nat) :
  (length table <= i)%nat -> entry table (Z.of_nat i) = OutOfBounds.
Proof.
  intros Hi. unfold entry.
  destruct (Z.ltb_spec (Z.of_nat i) 0) as [Hneg|_]; [reflexivity|].
  rewrite Nat2Z.id, lookup_ge_None_2; auto.
Qed.

(** The scan passes every entry that is not above the query. *)
Lemma scan_skip (pre rest : list data11) (q_perp : R) (iq : Z) :
  Forall (fun en => a en <= q_perp) pre ->
  scan (pre ++ rest) q_perp iq = scan rest q_perp (iq + Z.of_nat (length pre)).
Proof.
  intros Hpre. revert iq.
  induction Hpre as [|en pre Hen _ IH]; intros iq; simpl.
  - f_equal. lia.
  - dcases; [|lra]. rewrite IH. f_equal. lia.
Qed.

(** The scan never fails to end: it stops on an entry or on the first read
    past the table. *)
Lemma scan_ends (table : list data11) (q_perp : R) (iq : Z) :
  scan table q_perp iq = OutOfBounds \/
  exists n, (n < length table)%nat /\ scan table q_perp iq = Value (iq + Z.of_nat n)%Z.
Proof.
  revert iq. induction table as [|en rest IH]; intros iq; simpl; [now left|].
  dcases.
  - destruct (IH (iq + 1)%Z) as [->|(n & Hn & ->)]; [now left|].
    right. exists (S n). split; [lia|]. f_equal. lia.
  - right. exists 0%nat. split; [lia|]. f_equal. lia.
Qed.

Lemma last_entry (table : list data11) (nq : nat) (en : data11) :
  length table = nq -> last table = Some en ->
  entry table (Z.of_nat nq - 1) = Value en.
Proof.
  intros Hlen Hlast. rewrite last_lookup in Hlast.
  assert (nq <> 0)%nat.
  { intros ->. destruct table; [discriminate Hlast | discriminate Hlen]. }
  replace (Z.of_nat nq - 1)%Z with (Z.of_nat (pred (length table))) by lia.
  now apply entry_lookup.
Qed.

(** A query above the last entry ends the program. *)
Lemma lookup_ff_above_last (table : list data11) (nq : nat) (en : data11)
    (q_perp : R) :
  length table = nq -> last table = Some en -> a en < q_perp ->
  lookup_ff table q_perp nq = Fatal ("q_perp>maximum allowed q!" ++ newline) 0.
Proof.
  intros Hlen Hlast Hq. unfold lookup_ff.
  rewrite (last_entry _ _ _ Hlen Hlast). simpl.
  dcases; [reflexivity | lra].
Qed.

(** A query bracketed by two neighbouring entries is interpolated between
    them. *)
Lemma lookup_ff_bracket (pre post : list data11) (lo hi : data11) (nq : nat)
    (q_perp : R) :
  let table := pre ++ lo :: hi :: post in
  length table = nq -> increasing table ->
  a lo <= q_perp < a hi ->
  lookup_ff table q_perp nq = Value (interpolate lo hi q_perp).
Proof.
  intros table Hlen Hinc [Hlo Hhi]. unfold lookup_ff.
  unfold increasing, table in Hinc.
  apply StronglySorted_app in Hinc as (Hcross & _ & Hrest).
  apply StronglySorted_cons in Hrest as (_ & Hrest).
  apply StronglySorted_cons in Hrest as (Hhi_post & _).
  assert (Hpre : Forall (fun en => a en <= q_perp) (pre ++ [lo])).
  { apply Forall_app. split; [|constructor; [exact Hlo | constructor]].
    apply Forall_forall. intros en Hen.
    assert (a en < a lo); [|lra].
    apply Hcross; [exact Hen | constructor]. }
  assert (Hpost : forall en, last table = Some en -> q_perp < a en).
  { intros en Hen. unfold table in Hen.
    rewrite last_app_cons, last_cons_cons in Hen.
    apply last_Some_elem_of in Hen.
    apply elem_of_cons in Hen as [->|Hen]; [lra|].
    rewrite Forall_forall in Hhi_post. specialize (Hhi_post _ Hen). lra. }
  destruct (last table) as [en|] eqn:Elast.
  2:{ apply last_None in Elast. unfold table in Elast.
      destruct pre; discriminate. }
  rewrite (last_entry _ _ _ Hlen Elast). simpl.
  specialize (Hpost _ eq_refl). dcases; [lra|].
  unfold table.
  replace (pre ++ lo :: hi :: post) with ((pre ++ [lo]) ++ hi :: post)
    by (rewrite <- app_assoc; reflexivity).
  rewrite (scan_skip _ _ _ _ Hpre). simpl scan. dcases; [lra|]. simpl.
  rewrite length_app. simpl length.
  replace (0 + Z.of_nat (length pre + 1) - 1)%Z with (Z.of_nat (length pre)) by lia.
  replace (0 + Z.of_nat (length pre + 1))%Z with (Z.of_nat (length pre + 1)) by lia.
  rewrite (entry_lookup _ (length pre) lo), (entry_lookup _ (length pre + 1) hi);
    [reflexivity| |].
  - rewrite lookup_app_r; rewrite length_app; simpl; [|lia].
    now replace (length pre + 1 - (length pre + 1))%nat with 0%nat by lia.
  - rewrite <- app_assoc. simpl. rewrite lookup_app_r; [|lia].
    now replace (length pre - length pre)%nat with 0%nat by lia.
Qed.

(** A query equal to the wave-vector of the last entry passes the range
    test, and the scan then runs off the end of the table. *)
Lemma lookup_ff_at_last (table : list data11) (nq : nat) (en : data11) :
  length table = nq -> increasing table -> last table = Some en ->
  lookup_ff table (a en) nq = OutOfBounds.
Proof.
  intros Hlen Hinc Hlast. unfold lookup_ff.
  rewrite (last_entry _ _ _ Hlen Hlast). simpl.
  dcases; [lra|].
  apply last_Some in Hlast as [pre ->].
  apply StronglySorted_app in Hinc as (Hcross & _ & _).
  rewrite <- (app_nil_r (pre ++ [en])), scan_skip; [reflexivity|].
  apply Forall_app. split; [|constructor; [lra | constructor]].
  apply Forall_forall. intros en' Hen'.
  assert (a en' < a en); [|lra].
  apply Hcross; [exact Hen' | constructor].
Qed.

(** A stored wave-vector other than the last gives back the stored value. *)
Lemma lookup_ff_stored (pre post : list data11) (lo hi : data11) (nq : nat) :
  let table := pre ++ lo :: hi :: post in
  length table = nq -> increasing table ->
  lookup_ff table (a lo) nq = Value (b lo).
Proof.
  intros table Hlen Hinc.
  assert (Hlohi : a lo < a hi).
  { unfold increasing, table in Hinc.
    apply StronglySorted_app in Hinc as (_ & _ & Hrest).
    apply StronglySorted_cons in Hrest as (Hlo & _).
    now inversion Hlo. }
  unfold table. rewrite lookup_ff_bracket; auto; [|lra].
  unfold interpolate. f_equal.
  replace (a lo - a lo) with 0 by lra. unfold Rdiv. ring.
Qed.

(** The interpolation lies between the two values it is taken from. *)
Lemma interpolate_between (lo hi : data11) (q_perp : R) :
  a lo <= q_perp <= a hi -> a lo < a hi ->
  Rmin (b lo) (b hi) <= interpolate lo hi q_perp <= Rmax (b lo) (b hi).
Proof.
  intros [Hlo Hhi] Hlt. unfold interpolate.
  set (t := (q_perp - a lo) / (a hi - a lo)).
  assert (Ht : 0 <= t <= 1).
  { unfold t. split.
    - apply quotient_nonneg; lra.
    - apply quotient_le_1; lra. }
  replace ((b hi - b lo) * (q_perp - a lo) / (a hi - a lo))
    with ((b hi - b lo) * t) by (unfold t, Rdiv; ring).
  unfold Rmin, Rmax. destruct (Rle_dec (b lo) (b hi)); nra.
Qed.

(** C7. A query strictly above every tabulated wave-vector of a non-empty
    table makes both lookups print the diagnostic and end the program by
    [exit]: no value is returned, nothing is extrapolated. *)
Theorem lookup_above_range_is_fatal (table : list data11) (nq : nat)
    (q_perp : R) :
  length table = nq -> (1 <= nq)%nat ->
  Forall (fun en => a en < q_perp) table ->
  lookup_ff table q_perp nq = Fatal ("q_perp>maximum allowed q!" ++ newline) 0 /\
  lookup_PI table q_perp nq = Fatal ("q_perp>maximum allowed q!" ++ newline) 0.
Proof.
  intros Hlen Hnq Hall. change lookup_PI with lookup_ff.
  destruct (last table) as [en|] eqn:Elast.
  - assert (a en < q_perp).
    { rewrite Forall_forall in Hall. apply Hall.
      now apply last_Some_elem_of. }
    split; now apply lookup_ff_above_last with en.
  - apply last_None in Elast. subst table. simpl in Hlen. lia.
Qed.

Lemma lookup_above_range_is_fatal_witness :
  lookup_ff [ {| a := 0; b := 1 |}; {| a := 1; b := 2 |} ] 2 2
    = Fatal ("q_perp>maximum allowed q!" ++ newline) 0 /\
  lookup_PI [ {| a := 0; b := 1 |}; {| a := 1; b := 2 |} ] 2 2
    = Fatal ("q_perp>maximum allowed q!" ++ newline) 0.
Proof.
  apply lookup_above_range_is_fatal; [reflexivity | lia |].
  repeat constructor; simpl; lra.
Defined.

(** C3, at the last entry. On the two-entry table [(0,2); (1,3)] the query
    [q_perp = 1], the wave-vector of the last entry, is not answered by the
    stored value 3: the test [q_perp > 1] lets it pass and the scan
    [while(q_perp >= (table+iq)->a)] then reads the entry of index 2, which
    the table does not have.  The same holds for [lookup_PI]. *)
Theorem lookup_at_last_entry_reads_past_table :
  lookup_ff [ {| a := 0; b := 2 |}; {| a := 1; b := 3 |} ] 1 2 = OutOfBounds /\
  lookup_PI [ {| a := 0; b := 2 |}; {| a := 1; b := 3 |} ] 1 2 = OutOfBounds.
Proof.
  change lookup_PI with lookup_ff. split.
  all: apply (lookup_ff_at_last _ 2 {| a := 1; b := 3 |});
    [reflexivity | | reflexivity].
  all: repeat constructor; simpl; lra.
Qed.

(** A query equal to a stored wave-vector that is not the last one returns
    the stored value, from either lookup. *)
Theorem lookup_stored_not_last (pre post : list data11) (lo hi : data11)
    (nq : nat) :
  length (pre ++ lo :: hi :: post) = nq ->
  increasing (pre ++ lo :: hi :: post) ->
  lookup_ff (pre ++ lo :: hi :: post) (a lo) nq = Value (b lo) /\
  lookup_PI (pre ++ lo :: hi :: post) (a lo) nq = Value (b lo).
Proof.
  intros Hlen Hinc. change lookup_PI with lookup_ff.
  split; now apply lookup_ff_stored.
Qed.

Lemma lookup_stored_not_last_witness :
  lookup_ff [ {| a := 0; b := 2 |}; {| a := 1; b := 3 |} ] 0 2 = Value 2 /\
  lookup_PI [ {| a := 0; b := 2 |}; {| a := 1; b := 3 |} ] 0 2 = Value 2.
Proof.
  apply (lookup_stored_not_last [] [] {| a := 0; b := 2 |} {| a := 1; b := 3 |} 2);
    [reflexivity|].
  repeat constructor; simpl; lra.
Defined.

(** A query strictly between two neighbouring stored wave-vectors returns
    the linear interpolation of the two entries, which lies between their
    values. *)
Theorem lookup_between_neighbours (pre post : list data11) (lo hi : data11)
    (nq : nat) (q_perp : R) :
  length (pre ++ lo :: hi :: post) = nq ->
  increasing (pre ++ lo :: hi :: post) ->
  a lo < q_perp < a hi ->
  lookup_ff (pre ++ lo :: hi :: post) q_perp nq = Value (interpolate lo hi q_perp) /\
  lookup_PI (pre ++ lo :: hi :: post) q_perp nq = Value (interpolate lo hi q_perp) /\
  Rmin (b lo) (b hi) <= interpolate lo hi q_perp <= Rmax (b lo) (b hi).
Proof.
  intros Hlen Hinc Hq. change lookup_PI with lookup_ff.
  repeat split; try (apply lookup_ff_bracket; auto; lra);
    apply interpolate_between; lra.
Qed.

Lemma lookup_between_neighbours_witness :
  lookup_ff [ {| a := 0; b := 2 |}; {| a := 2; b := 4 |} ] 1 2
    = Value (interpolate {| a := 0; b := 2 |} {| a := 2; b := 4 |} 1) /\
  lookup_PI [ {| a := 0; b := 2 |}; {| a := 2; b := 4 |} ] 1 2
    = Value (interpolate {| a := 0; b := 2 |} {| a := 2; b := 4 |} 1) /\
  Rmin 2 4 <= interpolate {| a := 0; b := 2 |} {| a := 2; b := 4 |} 1 <= Rmax 2 4.
Proof.
  apply (lookup_between_neighbours [] [] {| a := 0; b := 2 |} {| a := 2; b := 4 |} 2 1);
    [reflexivity | | simpl; lra].
  repeat constructor; simpl; lra.
Defined.

End Lookup.

(** ** The carrier-carrier transition loop *)

Section Transition.
Import Srcc.
Context {C : Constants}.

Lemma uint_add_small (x y : Z) :
  (0 <= x)%Z -> (0 <= y)%Z -> (x + y < 2 ^ 32)%Z -> uint_add x y = (x + y)%Z.
Proof. intros Hx Hy Hxy. unfold uint_add. apply Z.mod_small. lia. Qed.

(** The test of the code is on the sums modulo [2^32]. *)
Lemma Deltak0sqr_cases (m : R) (i j f g : Z) (Ei Ej Ef Eg : R) :
  Deltak0sqr m i j f g Ei Ej Ef Eg =
    if decide (uint_add i j = uint_add f g) then 0
    else 4 * m * (Ei + Ej - Ef - Eg) / (hBar * hBar).
Proof.
  unfold Deltak0sqr.
  destruct (Z.eqb_spec (uint_add i j) (uint_add f g)) as [Heq|Hne];
    destruct (decide _); simpl; congruence.
Qed.

(** C8. For subband indices whose sums stay within [unsigned int],
    [Deltak0sqr] is [4 m (Ei+Ej-Ef-Eg) / hBar^2] when [i+j] differs from
    [f+g], and is zero when [i+j = f+g], whatever the energies. *)
Theorem Deltak0sqr_by_index_sum (m : R) (i j f g : Z) (Ei Ej Ef Eg : R) :
  (0 <= i)%Z -> (0 <= j)%Z -> (0 <= f)%Z -> (0 <= g)%Z ->
  (i + j < 2 ^ 32)%Z -> (f + g < 2 ^ 32)%Z ->
  ((i + j)%Z <> (f + g)%Z ->
     Deltak0sqr m i j f g Ei Ej Ef Eg
       = 4 * m * (Ei + Ej - Ef - Eg) / (hBar * hBar)) /\
  ((i + j)%Z = (f + g)%Z -> Deltak0sqr m i j f g Ei Ej Ef Eg = 0).
Proof.
  intros Hi Hj Hf Hg Hij Hfg. rewrite Deltak0sqr_cases.
  rewrite !uint_add_small by assumption.
  destruct (decide _); split; intros; congruence.
Qed.

(** *** The theta sample *)

Lemma c_sqrt_nonneg (x : R) : 0 <= x -> c_sqrt x = Some (sqrt x).
Proof. intros Hx. unfold c_sqrt. dcases; [reflexivity | lra]. Qed.

Lemma c_sqrt_neg (x : R) : x < 0 -> c_sqrt x = None.
Proof. intros Hx. unfold c_sqrt. dcases; [lra | reflexivity]. Qed.

(** In exact arithmetic the argument [4 q_perp^2], when it is a number, is a
    squared distance in the plane and so not negative: a negative value
    reaches the test only through rounding, and a forbidden channel
    ([kij*kij+Deltak0sqr < 0]) reaches it as a NaN. *)
Remark q_perpsqr4_not_negative (kij Deltak0sqr theta d : R) :
  q_perpsqr4 kij Deltak0sqr theta = Some d -> 0 <= d.
Proof.
  unfold q_perpsqr4, c_sqrt.
  destruct (dle 0 (kij * kij + Deltak0sqr)) eqn:Harg; simpl; [|discriminate].
  apply dle_spec in Harg. intros [= <-].
  pose proof (sqrt_sqrt _ Harg) as Hs.
  pose proof (sqrt_pos (kij * kij + Deltak0sqr)) as Hs0.
  pose proof (COS_bound theta) as [Hc1 Hc2].
  set (s := sqrt (kij * kij + Deltak0sqr)) in *.
  set (c := cos theta) in *.
  replace (2 * kij * kij + Deltak0sqr - 2 * kij * s * c)
    with ((kij - s * c) * (kij - s * c) + s * s * (1 - c * c)) by nra.
  assert (Hc : 0 <= 1 - c * c) by nra.
  assert (Hss : 0 <= s * s) by nra.
  pose proof (Rmult_le_pos _ _ Hss Hc).
  pose proof (Rle_0_sqr (kij - s * c)) as Hsq. unfold Rsqr in Hsq.
  lra.
Qed.

Remark q_perpsqr4_forbidden (kij Deltak0sqr theta : R) :
  kij * kij + Deltak0sqr < 0 -> q_perpsqr4 kij Deltak0sqr theta = None.
Proof. intros Hneg. unfold q_perpsqr4. now rewrite c_sqrt_neg. Qed.

(** C5. At a theta sample whose [q_perpsqr4] is negative, and likewise at
    one where it is a NaN (as for a forbidden channel, where
    [kij*kij+Deltak0sqr] is negative), [Wijfg] is left as it was and the
    step ends with a value: no lookup is made, nothing fails.  The square
    root that gives [q_perp] stands behind the test [q_perpsqr4 >= 0]: where
    the test holds its argument is not negative and the root is a number,
    not a NaN. *)
Theorem negative_q_perpsqr4_is_skipped (Aijfg PIii : list data11) (nq : nat)
    (epsilon P kj Wijfg : R) :
  (forall d, d < 0 ->
     theta_update Aijfg PIii nq epsilon P kj (Some d) Wijfg = Value (Some Wijfg)) /\
  theta_update Aijfg PIii nq epsilon P kj None Wijfg = Value (Some Wijfg) /\
  (forall kij Deltak0sqr theta, kij * kij + Deltak0sqr < 0 ->
     theta_step Aijfg PIii nq epsilon Deltak0sqr P kj kij theta Wijfg
       = Value (Some Wijfg)) /\
  (forall d, dge d 0 = true -> 0 <= d /\ c_sqrt d = Some (sqrt d)).
Proof.
  split; [|split; [|split]].
  - intros d Hd. unfold theta_update. dcases; [lra | reflexivity].
  - reflexivity.
  - intros kij Deltak0sqr theta Hneg. unfold theta_step.
    now rewrite q_perpsqr4_forbidden.
  - intros d Hd. apply dge_spec in Hd.
    split; [lra | apply c_sqrt_nonneg; lra].
Qed.

(** *** The base term of the screening integral *)

Lemma P0_base_pos (m : R) : 0 < m -> 0 < m / (pi * hBar * hBar).
Proof.
  intros Hm. pose proof PI_RGT_0. pose proof hBar_pos.
  apply Rdiv_lt_0_compat; [exact Hm|].
  unfold pi. apply Rmult_lt_0_compat; [apply Rmult_lt_0_compat|]; assumption.
Qed.

(** C4, as the code has it. The base term is reduced by
    [m/(pi hBar^2) sqrt(1-(2k/q)^2)] exactly when [q > 2k], and is left at
    [m/(pi hBar^2)] otherwise; for a positive mass and a wave-vector
    [k >= 0] the reduced term is strictly below the base value. *)
Theorem P0_reduced_when_q_above_2k (m q_perp ki : R) :
  0 < m -> 0 <= ki ->
  (q_perp > 2 * ki ->
     P0_at m q_perp ki
       = m / (pi * hBar * hBar)
         - m / (pi * hBar * hBar) * sqrt (1 - gsl_pow_2 (2 * ki / q_perp))) /\
  (q_perp <= 2 * ki -> P0_at m q_perp ki = m / (pi * hBar * hBar)) /\
  (P0_at m q_perp ki < m / (pi * hBar * hBar) <-> q_perp > 2 * ki).
Proof.
  intros Hm Hki. pose proof (P0_base_pos m Hm) as Hbase.
  unfold P0_at.
  destruct (dgt q_perp (2 * ki)) eqn:Hq;
    [apply dgt_spec in Hq | apply dgt_false in Hq].
  - split; [reflexivity|]. split; [lra|].
    split; [intros _; exact Hq|intros _].
    assert (Hroot : 0 < sqrt (1 - gsl_pow_2 (2 * ki / q_perp))).
    { apply sqrt_lt_R0. unfold gsl_pow_2.
      assert (Ht : 0 <= 2 * ki / q_perp < 1).
      { split; [apply quotient_nonneg; lra|].
        apply (Rmult_lt_reg_r q_perp); [lra|].
        unfold Rdiv. rewrite Rmult_assoc, Rinv_l; lra. }
      nra. }
    nra.
  - split; [lra|]. split; [reflexivity|]. split; lra.
Qed.

End Transition.

(** C4, as the specification words it ([P0_spec]), fails: with [m = 1],
    [q = 1] and [k = 0] (so that [q < 2k] does not hold) the code does
    reduce the base term, to zero, where the specification leaves it at its
    base value. *)
Lemma P0_not_reduced_below_2k :
  @Srcc.P0_at SI 1 1 0 <> @Srcc.P0_spec SI 1 1 0.
Proof.
  unfold Srcc.P0_at, Srcc.P0_spec.
  pose proof (@P0_base_pos SI 1 ltac:(lra)) as Hbase.
  dcases; try lra.
  unfold gsl_pow_2.
  replace (1 - 2 * 0 / 1 * (2 * 0 / 1)) with 1 by (unfold Rdiv; ring).
  rewrite sqrt_1. lra.
Qed.

Lemma Deltak0sqr_by_index_sum_witness :
  @Srcc.Deltak0sqr SI 1 2 2 1 1 5 3 2 2
    = 4 * 1 * (5 + 3 - 2 - 2) / (@hBar SI * @hBar SI) /\
  @Srcc.Deltak0sqr SI 1 1 2 2 1 5 3 2 2 = 0.
Proof.
  split.
  - apply (@Deltak0sqr_by_index_sum SI 1 2 2 1 1 5 3 2 2); lia.
  - apply (@Deltak0sqr_by_index_sum SI 1 1 2 2 1 5 3 2 2); lia.
Defined.

Lemma negative_q_perpsqr4_is_skipped_witness :
  @Srcc.theta_update SI [] [] 0 1 1 1 (Some (-1)) 5 = Srcc.Value (Some 5).
Proof.
  apply (@negative_q_perpsqr4_is_skipped SI [] [] 0 1 1 1 5). lra.
Defined.

Lemma P0_reduced_when_q_above_2k_witness :
  @Srcc.P0_at SI 1 1 0 < 1 / (pi * @hBar SI * @hBar SI).
Proof.
  apply (@P0_reduced_when_q_above_2k SI 1 1 0); lra.
Defined.

(** ** The carrier-LO-phonon loop over the initial wave-vector *)

Section Phonon.
Import Srelo.
Context {C : Constants}.
Variable integral : list R -> R -> R.
Variable cfg : setup.
Variables isb fsb : Subband.

Lemma Theta_negative (x : R) : x < 0 -> Theta x = 0.
Proof. intros Hx. unfold Theta. dcases; [lra | reflexivity]. Qed.

Lemma lookup_samples {A : Type} (f : nat -> A) (n i : nat) :
  (i < n)%nat -> map f (seq 0 n) !! i = Some (f i).
Proof.
  intros Hi. rewrite list_lookup_fmap, lookup_seq_lt by exact Hi. reflexivity.
Qed.

(** *** The integrand and its square root *)

(** The argument of the square root is a sum of two squares. *)
Lemma radicand_squares (Kz_2 ki Delta : R) :
  radicand cfg Kz_2 ki Delta
    = gsl_pow_2 (Kz_2 - 2 * m cfg * Delta / (hBar * hBar))
      + 4 * Kz_2 * ki * ki.
Proof. unfold radicand, gsl_pow_2. ring. Qed.

Lemma square_pos (x : R) : x <> 0 -> 0 < x * x.
Proof.
  intros Hx. pose proof (Rle_0_sqr x) as [H|H]; [exact H|].
  symmetry in H. apply Rmult_integral in H. tauto.
Qed.

(** [Kz_2] is a number unless the screening divides by zero, and is then
    not negative. *)
Lemma Kz_2_at_number (Kz : list R) (iKz : nat) :
  (S_flag cfg = true -> iKz <> 0%nat -> rd Kz iKz <> 0) ->
  Kz_2_at cfg Kz iKz
    = Some (if S_flag cfg && negb (iKz =? 0)%nat
            then gsl_pow_2 (rd Kz iKz * rd Kz iKz + lambda_s_sq cfg)
                 / (rd Kz iKz * rd Kz iKz)
            else rd Kz iKz * rd Kz iKz).
Proof.
  intros Hnz. unfold Kz_2_at.
  destruct (S_flag cfg); simpl; [|reflexivity].
  destruct (Nat.eqb_spec iKz 0) as [->|Hne]; simpl; [reflexivity|].
  pose proof (square_pos _ (Hnz eq_refl Hne)) as Hsq.
  set (K2 := rd Kz iKz * rd Kz iKz) in *.
  pose proof (square_pos K2 ltac:(lra)) as Hsq4.
  unfold c_div.
  destruct (Req_dec_T K2 0) as [H0|_]; [lra|].
  destruct (Req_dec_T (K2 * K2) 0) as [H0|_]; [lra|].
  simpl. f_equal. unfold gsl_pow_2. field. lra.
Qed.

Lemma Kz_2_at_not_a_number (Kz : list R) (iKz : nat) :
  S_flag cfg = true -> iKz <> 0%nat -> rd Kz iKz = 0 ->
  Kz_2_at cfg Kz iKz = None.
Proof.
  intros HS Hne HKz. unfold Kz_2_at. rewrite HS.
  destruct (Nat.eqb_spec iKz 0) as [->|_]; [contradiction|]. simpl.
  rewrite HKz. unfold c_div.
  destruct (Req_dec_T (0 * 0) 0) as [_|H0]; [|lra].
  destruct (Req_dec_T (2 * lambda_s_sq cfg) 0); reflexivity.
Qed.

Lemma Kz_2_at_nonneg (Kz : list R) (iKz : nat) (Kz_2 : R) :
  Kz_2_at cfg Kz iKz = Some Kz_2 -> 0 <= Kz_2.
Proof.
  intros HK.
  pose proof (Rle_0_sqr (rd Kz iKz)) as Hsq. unfold Rsqr in Hsq.
  destruct (S_flag cfg) eqn:HS.
  2:{ unfold Kz_2_at in HK. rewrite HS in HK. simpl in HK.
      injection HK as <-. exact Hsq. }
  destruct (Nat.eq_dec iKz 0) as [->|Hne].
  { unfold Kz_2_at in HK. rewrite HS in HK. simpl in HK.
    injection HK as <-. exact Hsq. }
  destruct (Req_dec_T (rd Kz iKz) 0) as [H0|H0].
  { rewrite (Kz_2_at_not_a_number Kz iKz HS Hne H0) in HK. discriminate. }
  rewrite Kz_2_at_number in HK by (intros _ _; exact H0).
  rewrite HS in HK. destruct (Nat.eqb_spec iKz 0) as [|_]; [contradiction|].
  simpl in HK. injection HK as <-.
  apply quotient_nonneg.
  - exact (Rle_0_sqr (rd Kz iKz * rd Kz iKz + lambda_s_sq cfg)).
  - now apply square_pos.
Qed.

Lemma radicand_nonneg (Kz_2 ki Delta : R) :
  0 <= Kz_2 -> 0 <= radicand cfg Kz_2 ki Delta.
Proof.
  intros HK. rewrite radicand_squares.
  pose proof (Rle_0_sqr (Kz_2 - 2 * m cfg * Delta / (hBar * hBar))) as H1.
  pose proof (Rle_0_sqr ki) as H2. unfold Rsqr in *. unfold gsl_pow_2.
  assert (0 <= Kz_2 * (ki * ki)) by now apply Rmult_le_pos.
  lra.
Qed.

(** Where the argument of the root is zero the integrand divides by zero;
    elsewhere it is a number. *)
Lemma integrand_dKz_value (Kz Gifsqr : list R) (ki Delta : R) (iKz : nat)
    (Kz_2 : R) :
  Kz_2_at cfg Kz iKz = Some Kz_2 ->
  (radicand cfg Kz_2 ki Delta = 0 ->
     integrand_dKz cfg Kz Gifsqr ki Delta iKz = None) /\
  (radicand cfg Kz_2 ki Delta <> 0 ->
     integrand_dKz cfg Kz Gifsqr ki Delta iKz
       = Some (rd Gifsqr iKz / sqrt (radicand cfg Kz_2 ki Delta))).
Proof.
  intros HK. unfold integrand_dKz. rewrite HK. simpl.
  pose proof (radicand_nonneg Kz_2 ki Delta (Kz_2_at_nonneg _ _ _ HK)) as Hr.
  rewrite c_sqrt_nonneg by exact Hr. simpl. unfold c_div. split.
  - intros ->. rewrite sqrt_0.
    destruct (Req_dec_T 0 0) as [_|H0]; [|lra].
    destruct (Req_dec_T (rd Gifsqr iKz) 0); reflexivity.
  - intros Hne.
    destruct (Req_dec_T (sqrt (radicand cfg Kz_2 ki Delta)) 0) as [H0|_];
      [|reflexivity].
    apply sqrt_eq_0 in H0; [contradiction | exact Hr].
Qed.

(** *** The samples of an integrand *)

Lemma numbers_all (y : list dbl) : Forall is_Some y -> is_Some (numbers y).
Proof.
  induction 1 as [|s y [x ->] _ [ys IH]]; simpl; [now exists []|].
  rewrite IH. now exists (x :: ys).
Qed.

Lemma numbers_not_all (y : list dbl) :
  Exists (fun s => s = None) y -> numbers y = None.
Proof.
  induction 1 as [s y ->|s y _ IH]; simpl; [reflexivity|].
  destruct s; [|reflexivity]. now rewrite IH.
Qed.

(** *** The gate *)

(** At a forbidden sample the gate multiplies the rate by zero: the result
    is zero when the rate is a number, and not a number otherwise. *)
Lemma rates_at_gated (Kz Gifsqr : list R) (ki : R) :
  (Ek isb ki - Delta_a cfg isb fsb < 0 ->
     fst (rates_at integral cfg isb fsb Kz Gifsqr ki)
       = (fun _ => 0)
           <$> numbers (integrand_samples cfg Kz Gifsqr ki (Delta_a cfg isb fsb))) /\
  (Ek isb ki - Delta_e cfg isb fsb < 0 ->
     snd (rates_at integral cfg isb fsb Kz Gifsqr ki)
       = (fun _ => 0)
           <$> numbers (integrand_samples cfg Kz Gifsqr ki (Delta_e cfg isb fsb))).
Proof.
  unfold rates_at, integral_of. split; intros Hneg; cbn [fst snd];
    rewrite (Theta_negative _ Hneg);
    match goal with |- context [numbers ?y] => destruct (numbers y) end;
    destruct (b_flag cfg); dcases; try lra; simpl; try reflexivity;
    f_equal; ring.
Qed.

(** C6. At a sample [ki] of the loop whose final kinetic energy for
    emission, [Eki - Delta_e], is negative, the emission rate [Weif[iki]]
    that is written out is 0 when every sample of the emission integrand is
    a number.  When one of them is not, the rate before the gate is an
    infinity or a NaN and the gate, a product with zero, leaves a NaN, not
    0.  The same holds for the absorption rate [Waif[iki]] where
    [Eki - Delta_a] is negative. *)
Theorem forbidden_final_energy_rate (Kz Gifsqr : list R) (kimax : R)
    (iki : nat) :
  (iki < nki cfg)%nat ->
  (Ek isb (ki_at cfg kimax iki) - Delta_e cfg isb fsb < 0 ->
     (Forall is_Some
        (integrand_samples cfg Kz Gifsqr (ki_at cfg kimax iki)
           (Delta_e cfg isb fsb)) ->
      Weif integral cfg isb fsb Kz Gifsqr kimax !! iki = Some (Some 0)) /\
     (Exists (fun y => y = None)
        (integrand_samples cfg Kz Gifsqr (ki_at cfg kimax iki)
           (Delta_e cfg isb fsb)) ->
      Weif integral cfg isb fsb Kz Gifsqr kimax !! iki = Some None)) /\
  (Ek isb (ki_at cfg kimax iki) - Delta_a cfg isb fsb < 0 ->
     (Forall is_Some
        (integrand_samples cfg Kz Gifsqr (ki_at cfg kimax iki)
           (Delta_a cfg isb fsb)) ->
      Waif integral cfg isb fsb Kz Gifsqr kimax !! iki = Some (Some 0)) /\
     (Exists (fun y => y = None)
        (integrand_samples cfg Kz Gifsqr (ki_at cfg kimax iki)
           (Delta_a cfg isb fsb)) ->
      Waif integral cfg isb fsb Kz Gifsqr kimax !! iki = Some None)).
Proof.
  intros Hiki. unfold Weif, Waif.
  rewrite !lookup_samples by exact Hiki.
  pose proof (rates_at_gated Kz Gifsqr (ki_at cfg kimax iki)) as [Hab Hem].
  split; intros Hneg; [rewrite (Hem Hneg) | rewrite (Hab Hneg)];
    (split; intros Hs;
     [apply numbers_all in Hs as [ys ->]; reflexivity
     | now rewrite (numbers_not_all _ Hs)]).
Qed.

(** *** The grid *)

Lemma ki_grid_length (kimax : R) : length (ki_grid cfg kimax) = nki cfg.
Proof. unfold ki_grid. now rewrite length_map, length_seq. Qed.

Lemma round_to_float_exact (n : Z) :
  (0 <= n <= 2 ^ 24)%Z -> round_to_float n = n.
Proof.
  intros Hn. unfold round_to_float.
  destruct (Z.ltb_spec n (2 ^ 24)) as [Hlt|Hge]; [reflexivity|].
  assert (n = 2 ^ 24)%Z as -> by lia. reflexivity.
Qed.

Lemma float_of_size_t_exact (n : nat) :
  (Z.of_nat n <= 2 ^ 24)%Z -> float_of_size_t n = INR n.
Proof.
  intros Hn. unfold float_of_size_t.
  rewrite round_to_float_exact by lia. now rewrite INR_IZR_INZ.
Qed.

Lemma ki_at_below_cutoff (kimax : R) (iki : nat) :
  (Z.of_nat (nki cfg) <= 2 ^ 24)%Z ->
  (iki < nki cfg)%nat -> 0 < kimax -> ki_at cfg kimax iki < kimax.
Proof.
  intros Hexact Hiki Hk. unfold ki_at, dki.
  rewrite float_of_size_t_exact by exact Hexact.
  assert (Hn : 0 < INR (nki cfg)) by (apply lt_0_INR; lia).
  assert (Hi : INR iki < INR (nki cfg)) by (now apply lt_INR).
  apply (Rmult_lt_reg_r (INR (nki cfg))); [exact Hn|].
  replace (kimax / INR (nki cfg) * INR iki * INR (nki cfg))
    with (kimax * INR iki) by (field; lra).
  nra.
Qed.

(** C10, as the code has it. For [1 <= nki <= 2^24], where [(float)nki]
    is [nki], the grid has exactly the [nki] samples [iki * (kimax/nki)],
    [0 <= iki < nki]; the first is 0; and when the cutoff wave-vector
    [kimax] is positive every sample is strictly below it. *)
Theorem ki_grid_samples (kimax : R) :
  (1 <= nki cfg)%nat -> (Z.of_nat (nki cfg) <= 2 ^ 24)%Z ->
  length (ki_grid cfg kimax) = nki cfg /\
  (forall iki, (iki < nki cfg)%nat ->
     ki_grid cfg kimax !! iki = Some (INR iki * (kimax / INR (nki cfg)))) /\
  ki_grid cfg kimax !! 0%nat = Some 0 /\
  (0 < kimax -> Forall (fun ki => ki < kimax) (ki_grid cfg kimax)).
Proof.
  intros Hnki Hexact. split; [apply ki_grid_length|]. split; [|split].
  - intros iki Hiki. unfold ki_grid. rewrite lookup_samples by exact Hiki.
    f_equal. unfold ki_at, dki.
    rewrite float_of_size_t_exact by exact Hexact. ring.
  - unfold ki_grid. rewrite lookup_samples by lia.
    f_equal. unfold ki_at. simpl INR. ring.
  - intros Hk. apply Forall_lookup. intros iki ki Hki.
    assert (Hiki : (iki < nki cfg)%nat).
    { rewrite <- ki_grid_length with kimax. now apply lookup_lt_Some with ki. }
    unfold ki_grid in Hki. rewrite lookup_samples in Hki by exact Hiki.
    injection Hki as <-. now apply ki_at_below_cutoff.
Qed.

End Phonon.

(** On [singular_sample] the sample [ki = 0] of the transition from
    [lower_subband] to [upper_subband] is forbidden for emission, the
    emission integrand divides by zero at the phonon wave-vector 1, and the
    rate written out is not 0 but a NaN.  With the one phonon wave-vector 0
    of [single_sample] both integrands are numbers and both rates are 0. *)
Lemma forbidden_final_energy_rate_witness :
  Ek lower_subband (Srelo.ki_at singular_sample 1 0)
    - Srelo.Delta_e singular_sample lower_subband upper_subband < 0 /\
  @Srelo.Weif SI (fun _ _ => 1) singular_sample lower_subband upper_subband
     [0; 1] [1; 1] 1 !! 0%nat = Some None /\
  @Srelo.Weif SI (fun _ _ => 1) single_sample lower_subband upper_subband
     [0] [1] 1 !! 0%nat = Some (Some 0) /\
  @Srelo.Waif SI (fun _ _ => 1) single_sample lower_subband upper_subband
     [0] [1] 1 !! 0%nat = Some (Some 0).
Proof.
  pose proof (@forbidden_final_energy_rate SI (fun _ _ => 1)
                singular_sample lower_subband upper_subband [0; 1] [1; 1] 1
                0%nat ltac:(simpl; lia)) as [Hsing _].
  pose proof (@forbidden_final_energy_rate SI (fun _ _ => 1)
                single_sample lower_subband upper_subband [0] [1] 1 0%nat
                ltac:(simpl; lia)) as [Hem Hab].
  assert (Hki : forall cfg, Ek lower_subband (Srelo.ki_at cfg 1 0) = 0).
  { intros cfg. unfold Srelo.ki_at. simpl. ring. }
  assert (Hh : 0 < @hBar SI) by apply hBar_pos.
  assert (Hforbidden : Ek lower_subband (Srelo.ki_at singular_sample 1 0)
                       - Srelo.Delta_e singular_sample lower_subband upper_subband
                       < 0).
  { rewrite Hki. unfold Srelo.Delta_e. simpl. lra. }
  split; [exact Hforbidden|]. split; [|split].
  - apply Hsing; [exact Hforbidden|].
    unfold Srelo.integrand_samples. simpl.
    apply Exists_cons_tl, Exists_cons_hd.
    refine (proj1 (@integrand_dKz_value SI singular_sample [0; 1] [1; 1]
                     _ _ 1%nat (1 * 1) eq_refl) _).
    rewrite radicand_squares. unfold Srelo.Delta_e, gsl_pow_2.
    change (Srelo.m singular_sample) with (@hBar SI * @hBar SI / 3).
    change (Srelo.Ephonon singular_sample) with (1 / 2).
    change (get_E upper_subband) with 1. change (get_E lower_subband) with 0.
    replace (2 * (@hBar SI * @hBar SI / 3) * (1 - 0 + 1 / 2)
             / (@hBar SI * @hBar SI)) with 1 by (field; lra).
    unfold Srelo.ki_at. simpl INR. ring.
  - apply Hem.
    { rewrite Hki. unfold Srelo.Delta_e. simpl. lra. }
    unfold Srelo.integrand_samples. simpl. repeat constructor.
    eexists.
    refine (proj2 (@integrand_dKz_value SI single_sample [0] [1]
                     _ _ 0%nat (0 * 0) eq_refl) _).
    rewrite radicand_squares. unfold Srelo.Delta_e, gsl_pow_2. simpl.
    assert (0 < 2 * 1 * (1 - 0 + 1 / 2) / (@hBar SI * @hBar SI)).
    { apply Rdiv_lt_0_compat; [lra | now apply Rmult_lt_0_compat]. }
    simpl in *. nra.
  - apply Hab.
    { rewrite Hki. unfold Srelo.Delta_a. simpl. lra. }
    unfold Srelo.integrand_samples. simpl. repeat constructor.
    eexists.
    refine (proj2 (@integrand_dKz_value SI single_sample [0] [1]
                     _ _ 0%nat (0 * 0) eq_refl) _).
    rewrite radicand_squares. unfold Srelo.Delta_a, gsl_pow_2. simpl.
    assert (0 < 2 * 1 * (1 - 0 - 1 / 2) / (@hBar SI * @hBar SI)).
    { apply Rdiv_lt_0_compat; [lra | now apply Rmult_lt_0_compat]. }
    simpl in *. nra.
Defined.

Lemma ki_grid_samples_witness :
  length (Srelo.ki_grid single_sample 2) = 1%nat /\
  Srelo.ki_grid single_sample 2 !! 0%nat = Some 0 /\
  Forall (fun ki => ki < 2) (Srelo.ki_grid single_sample 2).
Proof.
  pose proof (ki_grid_samples single_sample 2
                ltac:(simpl; lia) ltac:(simpl; lia))
    as (Hlen & _ & Hfirst & Hbelow).
  split; [exact Hlen|]. split; [exact Hfirst|]. apply Hbelow. lra.
Defined.

(** C10, as the specification words it, fails in two places.  For a cutoff
    wave-vector of zero the single sample of the grid is 0, which is not
    strictly below the cutoff.  And for [nki = 2^24 + 1] the cast
    [(float)nki] gives [2^24], so that the step is [kimax/2^24] and the
    sample of index [2^24] is the cutoff [kimax] itself, not
    [2^24 * (kimax/nki)]. *)
Lemma ki_grid_reaches_cutoff :
  ~ Forall (fun ki => ki < 0) (Srelo.ki_grid single_sample 0) /\
  Srelo.ki_grid many_samples 1 !! Z.to_nat 16777216 = Some 1 /\
  1 <> INR (Z.to_nat 16777216) * (1 / INR (Srelo.nki many_samples)).
Proof.
  split; [|split].
  - intros Hall. rewrite Forall_lookup in Hall.
    specialize (Hall 0%nat (Srelo.ki_at single_sample 0 0) eq_refl).
    unfold Srelo.ki_at, Srelo.dki in Hall. simpl in Hall. lra.
  - unfold Srelo.ki_grid. rewrite lookup_samples by (unfold many_samples; simpl Srelo.nki; lia).
    f_equal. unfold Srelo.ki_at, Srelo.dki, float_of_size_t, many_samples.
    simpl Srelo.nki. rewrite Z2Nat.id by lia.
    rewrite INR_IZR_INZ, Z2Nat.id by lia.
    replace (round_to_float 16777217) with 16777216%Z by reflexivity.
    field.
  - unfold many_samples. simpl Srelo.nki.
    rewrite !INR_IZR_INZ, !Z2Nat.id by lia.
    intros Heq. apply (Rmult_eq_compat_r 16777217) in Heq.
    field_simplify in Heq. lra.
Qed.

(** ** The form-factor accumulators *)

Section Accumulators.
Import Srcc.

Lemma rd_insert_eq (v : list R) (i : nat) (x : R) :
  (i < length v)%nat -> rd (<[i := x]> v) i = x.
Proof.
  intros Hi. unfold rd. rewrite nth_lookup, list_lookup_insert_eq by exact Hi.
  reflexivity.
Qed.

Lemma rd_insert_ne (v : list R) (i j : nat) (x : R) :
  i <> j -> rd (<[i := x]> v) j = rd v j.
Proof.
  intros Hij. unfold rd. rewrite !nth_lookup, list_lookup_insert_ne by exact Hij.
  reflexivity.
Qed.

Lemma rd_map (f : R -> R) (v : list R) (i : nat) :
  (i < length v)%nat -> rd (map f v) i = f (rd v i).
Proof.
  intros Hi. unfold rd. rewrite !nth_lookup, list_lookup_fmap.
  destruct (lookup_lt_is_Some_2 v i Hi) as [x ->]. reflexivity.
Qed.

Lemma Rsum_app (l1 l2 : list R) : Rsum (l1 ++ l2) = Rsum l1 + Rsum l2.
Proof.
  unfold Rsum. induction l1 as [|x l1 IH]; simpl; [ring|]. rewrite IH. ring.
Qed.

Lemma Rsum_map_ext (f g : nat -> R) (l : list nat) :
  (forall i, i ∈ l -> f i = g i) -> Rsum (map f l) = Rsum (map g l).
Proof.
  unfold Rsum. induction l as [|i l IH]; intros Hfg; simpl; [reflexivity|].
  rewrite Hfg by constructor. rewrite IH; [reflexivity|].
  intros j Hj. apply Hfg. now constructor.
Qed.

Lemma Rsum_map_scale (f : nat -> R) (c : R) (l : list nat) :
  Rsum (map f l) * c = Rsum (map (fun i => f i * c) l).
Proof.
  unfold Rsum. induction l as [|i l IH]; simpl; [ring|]. rewrite <- IH. ring.
Qed.

(** The backward loop of [find_Cif_p] fills the array with suffix sums. *)
Lemma suffix_loop (t : nat -> R) (nz n : nat) (Cif : list R) :
  length Cif = nz -> (n < nz)%nat ->
  (forall i, (n <= i < nz)%nat -> rd Cif i = Rsum (map t (seq i (nz - i)))) ->
  let Cif' := foldl (fun Cif_p iz => <[iz := rd Cif_p (iz + 1) + t iz]> Cif_p)
                    Cif (rev (seq 0 n)) in
  length Cif' = nz /\
  forall i, (i < nz)%nat -> rd Cif' i = Rsum (map t (seq i (nz - i))).
Proof.
  revert Cif. induction n as [|n IH]; intros Cif Hlen Hn Hfilled; cbv zeta.
  - split; [exact Hlen|]. intros i Hi. apply Hfilled. lia.
  - rewrite seq_S, rev_unit. simpl. apply IH.
    + now rewrite length_insert.
    + lia.
    + intros i Hi. destruct (decide (i = n)) as [->|Hne].
      * rewrite rd_insert_eq by lia. rewrite Hfilled by lia.
        replace (nz - n)%nat with (S (nz - (n + 1))) by lia.
        simpl. replace (S n) with (n + 1)%nat by lia. unfold Rsum. simpl. ring.
      * rewrite rd_insert_ne by lia. apply Hfilled. lia.
Qed.

(** The forward loop of [find_Cif_m] fills the array with the sums of the
    terms strictly before each index. *)
Lemma prefix_loop (t : nat -> R) (n j : nat) (Cif : list R) :
  length Cif = (j + n)%nat -> (1 <= j)%nat ->
  (forall i, (i < j)%nat -> rd Cif i = Rsum (map t (seq 0 i))) ->
  let Cif' := foldl (fun Cif_m iz => <[iz := rd Cif_m (iz - 1) + t (iz - 1)%nat]> Cif_m)
                    Cif (seq j n) in
  length Cif' = (j + n)%nat /\
  forall i, (i < j + n)%nat -> rd Cif' i = Rsum (map t (seq 0 i)).
Proof.
  revert j Cif. induction n as [|n IH]; intros j Cif Hlen Hj Hfilled; simpl.
  - split; [exact Hlen|]. intros i Hi. apply Hfilled. lia.
  - replace (j + S n)%nat with (S j + n)%nat by lia. apply IH.
    + rewrite length_insert. lia.
    + lia.
    + intros i Hi. destruct (decide (i = j)) as [->|Hne].
      * rewrite rd_insert_eq by lia. rewrite Hfilled by lia.
        replace j with (S (j - 1)) at 3 by lia.
        rewrite seq_S, map_app, Rsum_app. unfold Rsum. simpl. ring.
      * rewrite rd_insert_ne by lia. apply Hfilled. lia.
Qed.

Lemma find_Cif_p_sums (psi_if exp_qz z : list R) (i : nat) :
  (1 <= length z)%nat -> (i < length z)%nat ->
  rd (find_Cif_p psi_if exp_qz z) i
    = Rsum (map (fun iz => rd psi_if iz / rd exp_qz iz * (rd z 1 - rd z 0))
                (seq i (length z - i))).
Proof.
  intros Hnz Hi. unfold find_Cif_p.
  apply (suffix_loop (fun iz => rd psi_if iz / rd exp_qz iz * (rd z 1 - rd z 0))
           (length z) (length z - 1)); [| lia | | exact Hi].
  - now rewrite length_insert, length_replicate.
  - intros i' Hi'. replace i' with (length z - 1)%nat by lia.
    rewrite rd_insert_eq by (rewrite length_replicate; lia).
    replace (length z - (length z - 1))%nat with 1%nat by lia.
    unfold Rsum. simpl. ring.
Qed.

Lemma find_Cif_m_sums (psi_if exp_qz z : list R) (i : nat) :
  (1 <= length z)%nat -> (i < length z)%nat ->
  rd (find_Cif_m psi_if exp_qz z) i
    = Rsum (map (fun iz => rd psi_if iz * rd exp_qz iz * (rd z 1 - rd z 0))
                (seq 0 i)).
Proof.
  intros Hnz Hi. unfold find_Cif_m.
  apply (prefix_loop (fun iz => rd psi_if iz * rd exp_qz iz * (rd z 1 - rd z 0))
           (length z - 1) 1); [| lia | | lia].
  - rewrite length_insert, length_replicate. lia.
  - intros i' Hi'. replace i' with 0%nat by lia.
    rewrite rd_insert_eq by (rewrite length_replicate; lia).
    reflexivity.
Qed.

Lemma exp_ratio (x y : R) : exp x / exp y = exp (x - y).
Proof. unfold Rdiv, Rminus. now rewrite exp_plus, exp_Ropp. Qed.

Lemma uniform_grid_sorted (z : list R) (i j : nat) :
  uniform_grid z -> (i <= j)%nat -> (j < length z)%nat -> rd z i <= rd z j.
Proof.
  intros [Hdz Hz] Hij Hj. rewrite (Hz i), (Hz j) by lia.
  apply le_INR in Hij. nra.
Qed.

(** On any grid sorted in increasing order the two accumulators give the
    rectangle-rule sum over the whole grid. *)
Lemma Iif_fast_on_sorted_grid (z psi_jg : list R) (q_perp : R) (iz0 : nat) :
  (2 <= length z)%nat -> (iz0 < length z)%nat ->
  (forall i j, (i <= j)%nat -> (j < length z)%nat -> rd z i <= rd z j) ->
  Iif_fast z psi_jg q_perp iz0 = Iif_bruteforce z psi_jg q_perp iz0.
Proof.
  intros Hnz Hiz0 Hsorted. unfold Iif_fast, Iif, Iif_bruteforce.
  rewrite find_Cif_m_sums, find_Cif_p_sums by lia.
  assert (Hsplit : seq 0 (length z) = seq 0 iz0 ++ seq iz0 (length z - iz0)).
  { change iz0 with (0 + iz0)%nat at 2.
    rewrite <- (seq_app iz0 (length z - iz0) 0). f_equal. lia. }
  rewrite Hsplit, map_app, Rsum_app.
  unfold find_exp_qz. rewrite rd_map by exact Hiz0.
  f_equal.
  - unfold Rdiv at 1. rewrite Rsum_map_scale. apply Rsum_map_ext.
    intros iz Hiz. apply elem_of_seq in Hiz.
    rewrite rd_map by lia.
    pose proof (Hsorted iz iz0 ltac:(lia) Hiz0) as Hle.
    rewrite Rabs_left1 by lra.
    replace (- q_perp * - (rd z iz - rd z iz0))
      with (q_perp * (rd z iz - rd z 0) - q_perp * (rd z iz0 - rd z 0)) by ring.
    rewrite <- exp_ratio. unfold Rdiv. ring.
  - rewrite Rsum_map_scale. apply Rsum_map_ext.
    intros iz Hiz. apply elem_of_seq in Hiz.
    rewrite rd_map by lia.
    pose proof (Hsorted iz0 iz ltac:(lia) ltac:(lia)) as Hle.
    rewrite Rabs_pos_eq by lra.
    replace (- q_perp * (rd z iz - rd z iz0))
      with (q_perp * (rd z iz0 - rd z 0) - q_perp * (rd z iz - rd z 0)) by ring.
    rewrite <- exp_ratio. unfold Rdiv. ring.
Qed.

(** C1. On every uniform grid of at least two points, for every array of
    wave-function products on that grid and every wave-vector [q >= 0]:
    [Cif_p[iz0]] is the sum of [psi_jg/exp(qz) dz] from [iz0] to the last
    grid point, [Cif_m[iz0]] is the sum of [psi_jg exp(qz) dz] over the
    points strictly before [iz0], and the value
    [Cif_m[iz0]/exp_qz[iz0] + Cif_p[iz0]*exp_qz[iz0]] obtained from them
    equals, at every index [iz0], the rectangle-rule sum over the whole grid
    of [psi_jg[iz] exp(-q |z[iz]-z[iz0]|) dz], in real arithmetic. *)
Theorem accumulators_match_double_sum (z psi_jg : list R) (q_perp : R)
    (iz0 : nat) :
  (2 <= length z)%nat -> length psi_jg = length z -> uniform_grid z ->
  0 <= q_perp -> (iz0 < length z)%nat ->
  let exp_qz := find_exp_qz q_perp z in
  let dz := rd z 1 - rd z 0 in
  rd (find_Cif_p psi_jg exp_qz z) iz0
    = Rsum (map (fun iz => rd psi_jg iz / rd exp_qz iz * dz)
                (seq iz0 (length z - iz0))) /\
  rd (find_Cif_m psi_jg exp_qz z) iz0
    = Rsum (map (fun iz => rd psi_jg iz * rd exp_qz iz * dz) (seq 0 iz0)) /\
  Iif_fast z psi_jg q_perp iz0 = Iif_bruteforce z psi_jg q_perp iz0.
Proof.
  intros Hnz _ Hgrid _ Hiz0. cbv zeta.
  split; [apply find_Cif_p_sums; lia|].
  split; [apply find_Cif_m_sums; lia|].
  apply Iif_fast_on_sorted_grid; auto.
  intros i j. now apply uniform_grid_sorted.
Qed.

Lemma accumulators_match_double_sum_witness :
  Iif_fast [0; 1; 2] [1; 2; 3] 1 1 = Iif_bruteforce [0; 1; 2] [1; 2; 3] 1 1.
Proof.
  apply (accumulators_match_double_sum [0; 1; 2] [1; 2; 3] 1 1);
    simpl; try lia; try lra.
  split; unfold rd; simpl; [lra|].
  intros i Hi. destruct i as [|[|[|i]]]; simpl in *; try lia; lra.
Defined.

End Accumulators.

(** ** The screening integral *)

Section Screening.
Import Srcc.
Context {C : Constants}.
Variable isb : Subband.
Variables q_perp T : R.

Lemma dmu_pos : 0 < dmu.
Proof. unfold dmu. pose proof e_pos. lra. Qed.

Local Abbreviation partial_integral := (Srcc.partial_integral isb q_perp T).

Lemma partial_integral_S (p : nat) :
  partial_integral (S p) = partial_integral p + dI_seq isb q_perp T p * dmu.
Proof.
  unfold partial_integral. rewrite seq_S, map_app, Rsum_app.
  unfold Rsum. simpl. ring.
Qed.

Lemma mu_seq_S (p : nat) : mu_seq isb (S p) = mu_seq isb p + dmu.
Proof. unfold mu_seq. rewrite S_INR. ring. Qed.

(** One pass of the loop, in terms of the closed forms. *)
Lemma PI_loop_pass (fuel p : nat) :
  PI_loop (S fuel) isb q_perp T (mu_seq isb p) (partial_integral p) p =
    if dgt (dI_seq isb q_perp T p) (partial_integral (S p) / 100)
    then PI_loop fuel isb q_perp T (mu_seq isb (S p)) (partial_integral (S p)) (S p)
    else Some (partial_integral (S p), S p).
Proof.
  simpl. rewrite <- mu_seq_S, <- partial_integral_S. reflexivity.
Qed.

Lemma PI_run_start (fuel : nat) :
  PI_run fuel isb q_perp T
    = PI_loop fuel isb q_perp T (mu_seq isb 0) (partial_integral 0) 0.
Proof.
  unfold PI_run, mu_seq. simpl INR.
  replace (get_E isb + 0 * dmu) with (get_E isb) by ring. reflexivity.
Qed.

(** What a finished run has done: from pass [p] on it kept going as long as
    the test held and stopped at the first pass where it failed. *)
Lemma PI_loop_result (fuel p : nat) (v : R) (n : nat) :
  PI_loop fuel isb q_perp T (mu_seq isb p) (partial_integral p) p = Some (v, n) ->
  (p < n)%nat /\
  v = partial_integral n /\
  dI_seq isb q_perp T (n - 1) <= partial_integral n / 100 /\
  forall j, (p <= j < n - 1)%nat ->
    dI_seq isb q_perp T j > partial_integral (S j) / 100.
Proof.
  revert p. induction fuel as [|fuel IH]; intros p; [discriminate|].
  rewrite PI_loop_pass.
  destruct (dgt (dI_seq isb q_perp T p) (partial_integral (S p) / 100)) eqn:Htest.
  - apply dgt_spec in Htest. intros Hrun.
    destruct (IH _ Hrun) as (Hn & Hv & Hstop & Hgo).
    split; [lia|]. split; [exact Hv|]. split; [exact Hstop|].
    intros j Hj. destruct (decide (j = p)) as [->|Hne]; [exact Htest|].
    apply Hgo. lia.
  - apply dgt_false in Htest. intros [= <- <-].
    replace (S p - 1)%nat with p by lia.
    split; [lia|]. split; [reflexivity|]. split; [exact Htest|].
    intros j Hj. lia.
Qed.

(** If the test fails at some pass, the loop started [d] passes earlier
    finishes within [d + 1] passes. *)
Lemma PI_loop_finishes (d p : nat) :
  dI_seq isb q_perp T (p + d) <= partial_integral (S (p + d)) / 100 ->
  exists v n,
    PI_loop (S d) isb q_perp T (mu_seq isb p) (partial_integral p) p = Some (v, n).
Proof.
  revert p. induction d as [|d IH]; intros p Hstop; rewrite PI_loop_pass.
  - replace (p + 0)%nat with p in Hstop by lia.
    apply dgt_false in Hstop. rewrite Hstop. eauto.
  - destruct (dgt _ _); [|eauto].
    apply IH. now replace (S p + d)%nat with (p + S d)%nat by lia.
Qed.

(** *** The increments are non-negative and become small *)

Hypothesis T_pos : 0 < T.
Hypothesis mass_pos : 0 < get_md_0 isb.

Lemma P0_at_bounds (m ki : R) :
  0 < m -> 0 <= P0_at m q_perp ki <= m / (pi * hBar * hBar).
Proof.
  intros Hm. pose proof (P0_base_pos m Hm) as Hbase. unfold P0_at.
  destruct (dgt q_perp (2 * ki)); [|lra].
  pose proof (sqrt_pos (1 - gsl_pow_2 (2 * ki / q_perp))) as Hroot.
  assert (Hroot1 : sqrt (1 - gsl_pow_2 (2 * ki / q_perp)) <= 1).
  { rewrite <- sqrt_1 at 2. apply sqrt_le_1_alt.
    unfold gsl_pow_2. pose proof (Rle_0_sqr (2 * ki / q_perp)) as Hsq.
    unfold Rsqr in Hsq. lra. }
  nra.
Qed.

Lemma cosh_sqr_above_abs (x : R) : Rabs x <= gsl_pow_2 (cosh x).
Proof.
  pose proof (exp_ineq1_le x). pose proof (exp_ineq1_le (- x)).
  pose proof (exp_pos x). pose proof (exp_pos (- x)).
  assert (Hc : (1 + Rabs x) / 2 <= cosh x).
  { unfold cosh, Rabs. destruct (Rcase_abs x); lra. }
  pose proof (Rabs_pos x) as Habs. unfold gsl_pow_2.
  set (r := Rabs x) in *.
  assert (Hmid : r <= (1 + r) / 2 * ((1 + r) / 2)).
  { pose proof (Rle_0_sqr (1 - r)) as Hsq. unfold Rsqr in Hsq. lra. }
  assert (Hsq : (1 + r) / 2 * ((1 + r) / 2) <= cosh x * cosh x).
  { apply Rmult_le_compat; lra. }
  lra.
Qed.

(** The thermal denominator [4 kB T cosh^2((Ef-mu)/(2 kB T))]. *)
Local Abbreviation thermal mu :=
  (4 * kB * T * gsl_pow_2 (cosh ((get_Ef isb - mu) / (2 * kB * T)))).

Lemma thermal_pos (mu : R) : 0 < thermal mu.
Proof.
  pose proof kB_pos.
  assert (0 < cosh ((get_Ef isb - mu) / (2 * kB * T))).
  { unfold cosh. pose proof (exp_pos ((get_Ef isb - mu) / (2 * kB * T))).
    pose proof (exp_pos (- ((get_Ef isb - mu) / (2 * kB * T)))). lra. }
  assert (0 < 4 * kB * T) by nra.
  unfold gsl_pow_2. apply Rmult_lt_0_compat; [|apply Rmult_lt_0_compat]; lra.
Qed.

Lemma thermal_grows (mu : R) : 2 * (mu - get_Ef isb) <= thermal mu.
Proof.
  pose proof kB_pos as HkB.
  assert (HkT : 0 < 2 * kB * T) by nra.
  pose proof (cosh_sqr_above_abs ((get_Ef isb - mu) / (2 * kB * T))) as Hc.
  pose proof (Rle_abs (- ((get_Ef isb - mu) / (2 * kB * T)))) as Habs.
  rewrite Rabs_Ropp in Habs.
  replace (2 * (mu - get_Ef isb))
    with (4 * kB * T * - ((get_Ef isb - mu) / (2 * kB * T))) by (field; lra).
  apply Rmult_le_compat_l; [nra | lra].
Qed.

Lemma dI_at_nonneg (mu : R) : 0 <= dI_at isb q_perp T mu.
Proof.
  unfold dI_at.
  apply quotient_nonneg; [|apply thermal_pos].
  now apply P0_at_bounds.
Qed.

Lemma dI_at_small (mu : R) :
  get_Ef isb < mu ->
  dI_at isb q_perp T mu
    <= get_md_0 isb / (pi * hBar * hBar) / (2 * (mu - get_Ef isb)).
Proof.
  intros Hmu. unfold dI_at.
  pose proof (P0_at_bounds (get_md_0 isb) (k isb mu) mass_pos) as [HP0 HP0'].
  pose proof (thermal_pos mu) as Hth. pose proof (thermal_grows mu) as Hgr.
  pose proof (P0_base_pos _ mass_pos) as Hbase.
  set (P0 := P0_at (get_md_0 isb) q_perp (k isb mu)) in *.
  set (base := get_md_0 isb / (pi * hBar * hBar)) in *.
  set (th := thermal mu) in *.
  apply Rle_trans with (base / th).
  - unfold Rdiv. apply Rmult_le_compat_r; [|exact HP0'].
    left. now apply Rinv_0_lt_compat.
  - unfold Rdiv. apply Rmult_le_compat_l; [lra|].
    apply Rinv_le_contravar; lra.
Qed.

(** Far enough up in energy the increment is below any positive bound. *)
Lemma dI_seq_small (eps : R) :
  0 < eps -> exists N, dI_seq isb q_perp T N <= eps.
Proof.
  intros Heps. pose proof (P0_base_pos _ mass_pos) as Hbase.
  set (base := get_md_0 isb / (pi * hBar * hBar)) in *.
  destruct (INR_archimed dmu (get_Ef isb - get_E isb + base / (2 * eps)) dmu_pos)
    as [N HN].
  exists N. unfold dI_seq.
  assert (Hfar : base / (2 * eps) < mu_seq isb N - get_Ef isb).
  { unfold mu_seq. lra. }
  assert (Hquot : 0 < base / (2 * eps)).
  { apply Rdiv_lt_0_compat; lra. }
  apply Rle_trans with (base / (2 * (mu_seq isb N - get_Ef isb)));
    [apply dI_at_small; lra|].
  apply (Rmult_le_reg_r (2 * (mu_seq isb N - get_Ef isb))); [lra|].
  unfold Rdiv at 1. rewrite Rmult_assoc, Rinv_l by lra.
  apply (Rmult_lt_compat_r (2 * eps)) in Hfar; [|lra].
  unfold Rdiv in Hfar at 1. rewrite Rmult_assoc, Rinv_l in Hfar by lra.
  lra.
Qed.

Lemma partial_integral_grows (p d : nat) :
  partial_integral p <= partial_integral (p + d).
Proof.
  induction d as [|d IH]; [replace (p + 0)%nat with p by lia; lra|].
  replace (p + S d)%nat with (S (p + d)) by lia.
  rewrite partial_integral_S.
  pose proof (dI_at_nonneg (mu_seq isb (p + d))) as HdI.
  fold (dI_seq isb q_perp T (p + d)) in HdI. pose proof dmu_pos. nra.
Qed.

(** The test fails at some pass. *)
Lemma PI_test_fails_eventually :
  exists N, dI_seq isb q_perp T N <= partial_integral (S N) / 100.
Proof.
  destruct (Rle_dec (dI_seq isb q_perp T 0) (partial_integral 1 / 100))
    as [Hfirst|Hfirst]; [now exists 0%nat|].
  apply Rnot_le_lt in Hfirst.
  assert (Hone : partial_integral 1 = dI_seq isb q_perp T 0 * dmu).
  { rewrite partial_integral_S. unfold Srcc.partial_integral, Rsum. simpl. ring. }
  pose proof (dI_at_nonneg (mu_seq isb 0)) as HdI0.
  fold (dI_seq isb q_perp T 0) in HdI0. pose proof dmu_pos as Hdmu.
  assert (Hpos : 0 < partial_integral 1 / 100).
  { rewrite Hone. destruct HdI0 as [HdI0|HdI0]; [nra|].
    rewrite Hone, <- HdI0 in Hfirst. lra. }
  destruct (dI_seq_small _ Hpos) as [N HN].
  exists N. pose proof (partial_integral_grows 1 N) as Hgrow.
  replace (1 + N)%nat with (S N) in Hgrow by lia. lra.
Qed.

Lemma PI_run_terminates : exists fuel v n, PI_run fuel isb q_perp T = Some (v, n).
Proof.
  destruct PI_test_fails_eventually as [N HN].
  exists (S N). rewrite PI_run_start.
  apply (PI_loop_finishes N 0). exact HN.
Qed.

End Screening.

(** C2. For a temperature [T > 0], a subband of positive band-edge mass and
    non-negative wave-vectors, and [q >= 0], the loop of [PI] finishes.
    Whenever it finishes it has taken [n >= 1] passes, its value is the sum
    of the first [n] increments times the step, the pass it stopped on is
    one whose increment does not exceed a hundredth of the sum that already
    contains it, and at every earlier pass the increment did exceed a
    hundredth of the running sum: the loop continues exactly while
    [dI > integral/100]. *)
Theorem PI_converges_after_first_pass {C : Constants} (isb : Subband)
    (q_perp T : R) :
  0 < T -> 0 < get_md_0 isb -> 0 <= q_perp -> (forall E, 0 <= k isb E) ->
  (exists fuel v n, Srcc.PI_run fuel isb q_perp T = Some (v, n)) /\
  (forall fuel v n, Srcc.PI_run fuel isb q_perp T = Some (v, n) ->
     (1 <= n)%nat /\
     v = Srcc.integral_seq isb q_perp T (n - 1) /\
     Srcc.dI_seq isb q_perp T (n - 1)
       <= Srcc.integral_seq isb q_perp T (n - 1) / 100 /\
     forall j, (j < n - 1)%nat ->
       Srcc.dI_seq isb q_perp T j > Srcc.integral_seq isb q_perp T j / 100).
Proof.
  intros HT Hm _ _. split; [now apply PI_run_terminates|].
  intros fuel v n Hrun. rewrite PI_run_start in Hrun.
  apply PI_loop_result in Hrun as (Hn & Hv & Hstop & Hgo).
  unfold Srcc.integral_seq.
  replace (S (n - 1)) with n by lia.
  split; [lia|]. split; [exact Hv|]. split; [exact Hstop|].
  intros j Hj. apply Hgo. lia.
Qed.

Lemma PI_converges_after_first_pass_witness :
  (exists fuel v n, @Srcc.PI_run SI fuel lower_subband 1 300 = Some (v, n)) /\
  (forall fuel v n, @Srcc.PI_run SI fuel lower_subband 1 300 = Some (v, n) ->
     (1 <= n)%nat /\
     v = @Srcc.integral_seq SI lower_subband 1 300 (n - 1) /\
     @Srcc.dI_seq SI lower_subband 1 300 (n - 1)
       <= @Srcc.integral_seq SI lower_subband 1 300 (n - 1) / 100 /\
     forall j, (j < n - 1)%nat ->
       @Srcc.dI_seq SI lower_subband 1 300 j
         > @Srcc.integral_seq SI lower_subband 1 300 j / 100).
Proof.
  apply (@PI_converges_after_first_pass SI lower_subband 1 300);
    simpl; try lra.
  intros E. apply sqrt_pos.
Defined.

(** ** More on the lookups: queries inside and below the tabulated range *)

Section LookupRange.
Import Srcc.

(** In an increasing table every query from the first wave-vector up to,
    but not including, the last one has a pair of neighbours around it. *)
Lemma bracket_exists (table : list data11) (first lst : data11) (q_perp : R) :
  increasing table -> head table = Some first -> last table = Some lst ->
  a first <= q_perp < a lst ->
  exists pre lo hi post,
    table = pre ++ lo :: hi :: post /\ a lo <= q_perp < a hi.
Proof.
  revert first. induction table as [|x rest IH]; intros first Hinc Hhd Hlast Hq;
    [discriminate|].
  injection Hhd as ->.
  destruct rest as [|y rest']; [injection Hlast as ->; lra|].
  destruct (Rlt_dec q_perp (a y)) as [Hy|Hy].
  - exists [], first, y, rest'. split; [reflexivity | lra].
  - apply StronglySorted_cons in Hinc as [_ Hinc].
    rewrite last_cons_cons in Hlast.
    destruct (IH y Hinc eq_refl Hlast ltac:(lra)) as (pre & lo & hi & post & -> & Hb).
    exists (first :: pre), lo, hi, post. split; [reflexivity | exact Hb].
Qed.

(** X3. Every query inside the tabulated range is answered: the table
    has two entries next to each other with the query between them, and
    both lookups return the interpolation between these two neighbours, a
    value between their two tabulated values. *)
Theorem lookup_inside_range_is_answered (table : list data11) (nq : nat)
    (first lst : data11) (q_perp : R) :
  length table = nq -> increasing table ->
  head table = Some first -> last table = Some lst ->
  a first <= q_perp < a lst ->
  exists pre lo hi post,
    table = pre ++ lo :: hi :: post /\ a lo <= q_perp < a hi /\
    lookup_ff table q_perp nq = Value (interpolate lo hi q_perp) /\
    lookup_PI table q_perp nq = Value (interpolate lo hi q_perp) /\
    Rmin (b lo) (b hi) <= interpolate lo hi q_perp <= Rmax (b lo) (b hi).
Proof.
  intros Hlen Hinc Hhd Hlast Hq.
  destruct (bracket_exists _ _ _ _ Hinc Hhd Hlast Hq)
    as (pre & lo & hi & post & Htable & Hb).
  exists pre, lo, hi, post. split; [exact Htable|]. subst table.
  split; [exact Hb|].
  change lookup_PI with lookup_ff.
  rewrite lookup_ff_bracket by assumption.
  split; [reflexivity|]. split; [reflexivity|].
  apply interpolate_between; lra.
Qed.

(** On the table [(0,2); (1,3); (2,5)] the query [3/2] lies between the
    second and the third entry, and both lookups return 4, half-way between
    3 and 5. *)
Lemma lookup_inside_range_is_answered_witness :
  lookup_ff [ {| a := 0; b := 2 |}; {| a := 1; b := 3 |}; {| a := 2; b := 5 |} ]
    (3 / 2) 3 = Value 4 /\
  lookup_PI [ {| a := 0; b := 2 |}; {| a := 1; b := 3 |}; {| a := 2; b := 5 |} ]
    (3 / 2) 3 = Value 4.
Proof.
  destruct (lookup_inside_range_is_answered
              [ {| a := 0; b := 2 |}; {| a := 1; b := 3 |}; {| a := 2; b := 5 |} ]
              3 {| a := 0; b := 2 |} {| a := 2; b := 5 |} (3 / 2))
    as (pre & lo & hi & post & Htable & [Hlo Hhi] & -> & -> & _);
    [reflexivity | repeat constructor; simpl; lra
    | reflexivity | reflexivity | simpl; lra |].
  assert (Hval : interpolate lo hi (3 / 2) = 4).
  { destruct pre as [|x0 [|x1 [|x2 pre]]].
    - injection Htable as <- <- _. simpl in Hhi. lra.
    - injection Htable as _ <- <- _. unfold interpolate. simpl. lra.
    - injection Htable as _ _ _ Hnil. discriminate Hnil.
    - injection Htable as _ _ _ Hnil. destruct pre; discriminate Hnil. }
  rewrite Hval. split; reflexivity.
Defined.

(** X4. A query below the first tabulated wave-vector is not refused: the scan
    stops at index 0 and the interpolation reads the entry of index -1,
    before the table. *)
Theorem lookup_below_first_reads_before_table (table : list data11)
    (nq : nat) (first : data11) (q_perp : R) :
  length table = nq -> increasing table -> head table = Some first ->
  q_perp < a first ->
  lookup_ff table q_perp nq = OutOfBounds /\
  lookup_PI table q_perp nq = OutOfBounds.
Proof.
  intros Hlen Hinc Hhd Hq. change lookup_PI with lookup_ff.
  assert (lookup_ff table q_perp nq = OutOfBounds); [|now split].
  destruct table as [|x rest]; [discriminate|]. injection Hhd as ->.
  destruct (last (first :: rest)) as [lst|] eqn:Hlast;
    [|apply last_None in Hlast; discriminate].
  assert (Hlst : a first <= a lst).
  { apply last_Some_elem_of in Hlast.
    apply elem_of_cons in Hlast as [->|Hin]; [lra|].
    apply StronglySorted_cons in Hinc as [Hall _].
    rewrite Forall_forall in Hall. specialize (Hall _ Hin). lra. }
  unfold lookup_ff. rewrite (last_entry _ _ _ Hlen Hlast). simpl.
  dcases; try lra. reflexivity.
Qed.

Lemma lookup_below_first_reads_before_table_witness :
  lookup_ff [ {| a := 0; b := 2 |}; {| a := 1; b := 3 |} ] (-1) 2 = OutOfBounds /\
  lookup_PI [ {| a := 0; b := 2 |}; {| a := 1; b := 3 |} ] (-1) 2 = OutOfBounds.
Proof.
  apply (lookup_below_first_reads_before_table _ 2 {| a := 0; b := 2 |});
    [reflexivity | | reflexivity | simpl; lra].
  repeat constructor; simpl; lra.
Defined.

(** The control flow of a lookup only looks at the wave-vector column. *)
Lemma scan_same_column (t1 t2 : list data11) (q_perp : R) (iq : Z) :
  map a t1 = map a t2 -> scan t1 q_perp iq = scan t2 q_perp iq.
Proof.
  revert t2 iq. induction t1 as [|x t1 IH]; intros [|y t2] iq Hcol;
    try discriminate; [reflexivity|].
  simpl in Hcol. injection Hcol as Hxy Hcol. simpl. rewrite Hxy.
  destruct (dge q_perp (a y)); [now apply IH | reflexivity].
Qed.

Lemma entry_same_column (t1 t2 : list data11) (i : Z) :
  map a t1 = map a t2 ->
  match entry t1 i, entry t2 i with
  | Value e1, Value e2 => a e1 = a e2
  | OutOfBounds, OutOfBounds => True
  | _, _ => False
  end.
Proof.
  intros Hcol. unfold entry. destruct (i <? 0)%Z; [exact I|].
  assert (Hi : map a t1 !! Z.to_nat i = map a t2 !! Z.to_nat i) by now rewrite Hcol.
  rewrite !list_lookup_fmap in Hi.
  destruct (t1 !! Z.to_nat i), (t2 !! Z.to_nat i); simpl in Hi;
    try discriminate; [now injection Hi | exact I].
Qed.

(** X5. Two tables over the same wave-vectors answer or fail together: for any
    query both lookups return values, or both end the program with the same
    message, or both read outside their table. *)
Theorem lookups_fail_together (Aijfg PIii : list data11) (nq : nat)
    (q_perp : R) :
  map a PIii = map a Aijfg ->
  match lookup_ff Aijfg q_perp nq, lookup_PI PIii q_perp nq with
  | Value _, Value _ => True
  | Fatal msg status, Fatal msg' status' => msg = msg' /\ status = status'
  | OutOfBounds, OutOfBounds => True
  | _, _ => False
  end.
Proof.
  intros Hcol. unfold lookup_ff, lookup_PI.
  pose proof (entry_same_column PIii Aijfg (Z.of_nat nq - 1) Hcol) as Hlast.
  destruct (entry PIii (Z.of_nat nq - 1)) as [l1| |],
           (entry Aijfg (Z.of_nat nq - 1)) as [l2| |]; simpl; try easy.
  rewrite Hlast. destruct (dgt q_perp (a l2)); [now split|].
  rewrite (scan_same_column PIii Aijfg q_perp 0 Hcol).
  destruct (scan Aijfg q_perp 0) as [iq| |]; simpl; try easy.
  pose proof (entry_same_column PIii Aijfg (iq - 1) Hcol) as Hlo.
  destruct (entry PIii (iq - 1)), (entry Aijfg (iq - 1)); simpl; try easy.
  pose proof (entry_same_column PIii Aijfg iq Hcol) as Hhi.
  destruct (entry PIii iq), (entry Aijfg iq); simpl; easy.
Qed.

Lemma lookups_fail_together_witness :
  match lookup_ff [ {| a := 0; b := 2 |}; {| a := 1; b := 3 |} ] 2 2,
        lookup_PI [ {| a := 0; b := 0 |}; {| a := 1; b := 0 |} ] 2 2 with
  | Value _, Value _ => True
  | Fatal msg status, Fatal msg' status' => msg = msg' /\ status = status'
  | OutOfBounds, OutOfBounds => True
  | _, _ => False
  end.
Proof.
  apply (lookups_fail_together [ {| a := 0; b := 2 |}; {| a := 1; b := 3 |} ]
           [ {| a := 0; b := 0 |}; {| a := 1; b := 0 |} ] 2 2).
  reflexivity.
Defined.

End LookupRange.

(** ** The form-factor table and the wave-vectors the quadrature asks for *)

Section FormFactorTable.
Import Srcc.
Context {C : Constants}.
Variable integral : list R -> R -> R.
Variables isb jsb fsb gsb : state.

Lemma ff_entries_length (q_max : R) (nq : nat) :
  length (ff_entries integral q_max isb jsb fsb gsb nq) = nq.
Proof. unfold ff_entries. now rewrite length_map, length_seq. Qed.

(** Within the range where the casts to [float] are exact the wave-vectors
    of the table are [iq * q_max/(nq-1)]. *)
Lemma ff_entries_exact (q_max : R) (nq : nat) :
  (Z.of_nat nq <= 2 ^ 24)%Z ->
  ff_entries integral q_max isb jsb fsb gsb nq
    = map (fun iq =>
             {| a := q_max / INR (nq - 1) * INR iq;
                b := A integral (q_max / INR (nq - 1) * INR iq) isb jsb fsb gsb |})
          (seq 0 nq).
Proof.
  intros Hnq. unfold ff_entries. apply map_ext_in. intros iq Hiq.
  apply in_seq in Hiq.
  rewrite !float_of_size_t_exact by lia. reflexivity.
Qed.

Lemma samples_increasing (g : nat -> data11) (i n : nat) :
  (forall x y, (x < y)%nat -> a (g x) < a (g y)) ->
  increasing (map g (seq i n)).
Proof.
  intros Hg. revert i. induction n as [|n IH]; intros i; simpl; [constructor|].
  constructor; [apply IH|].
  apply Forall_forall. intros en Hen.
  apply list_elem_of_fmap in Hen as (j & -> & Hj).
  apply elem_of_seq in Hj. apply Hg. lia.
Qed.

Lemma ff_entries_increasing (q_max : R) (nq : nat) :
  (2 <= nq)%nat -> (Z.of_nat nq <= 2 ^ 24)%Z -> 0 < q_max ->
  increasing (ff_entries integral q_max isb jsb fsb gsb nq).
Proof.
  intros Hnq Hexact Hq. rewrite ff_entries_exact by exact Hexact.
  apply samples_increasing. intros x y Hxy. simpl.
  assert (Hn : 0 < INR (nq - 1)) by (apply lt_0_INR; lia).
  assert (Hdq : 0 < q_max / INR (nq - 1)) by (apply Rdiv_lt_0_compat; lra).
  apply lt_INR in Hxy. nra.
Qed.

Lemma q_perp_max_nonneg (kimax kjmax Deltak0sqr q_max : R) :
  q_perp_max kimax kjmax Deltak0sqr = Some q_max -> 0 <= q_max.
Proof.
  unfold q_perp_max, c_sqrt.
  destruct (dle 0 (gsl_pow_2 (kimax + kjmax) + Deltak0sqr)); simpl; [|discriminate].
  destruct (dle 0 _); simpl; [|discriminate].
  intros [= <-]. pose proof (sqrt_pos
    (2 * gsl_pow_2 (kimax + kjmax) + Deltak0sqr
     + 2 * (kimax + kjmax) * sqrt (gsl_pow_2 (kimax + kjmax) + Deltak0sqr))).
  lra.
Qed.

(** X6. The table built by [ff_table] for [2 <= nq <= 2^24]: it has [nq]
    entries, each holding the overlap integral [A] at its own wave-vector;
    its wave-vectors start at 0, end at [q_perp_max], which is not
    negative, and increase strictly when [q_perp_max] is positive. *)
Theorem ff_table_covers_zero_to_q_perp_max (Deltak0sqr : R) (V : list R)
    (nq : nat) (table : list data11) :
  (2 <= nq)%nat -> (Z.of_nat nq <= 2 ^ 24)%Z ->
  ff_table integral Deltak0sqr isb jsb fsb gsb V nq = Some table ->
  length table = nq /\
  Forall (fun en => b en = A integral (a en) isb jsb fsb gsb) table /\
  exists q_max,
    q_perp_max (k (sb isb) (valarray_max V - get_E (sb isb)))
               (k (sb jsb) (valarray_max V - get_E (sb jsb))) Deltak0sqr
      = Some q_max /\
    0 <= q_max /\
    a <$> head table = Some 0 /\
    a <$> last table = Some q_max /\
    (0 < q_max -> increasing table).
Proof.
  intros Hnq Hexact. unfold ff_table.
  destruct (q_perp_max _ _ _) as [q_max|] eqn:Hmax; simpl; [|discriminate].
  intros [= <-].
  split; [apply ff_entries_length|]. split.
  { unfold ff_entries. apply Forall_forall. intros en Hen.
    apply list_elem_of_fmap in Hen as (iq & -> & _). reflexivity. }
  exists q_max. split; [reflexivity|].
  split; [now apply q_perp_max_nonneg in Hmax|].
  assert (Hn : 0 < INR (nq - 1)) by (apply lt_0_INR; lia).
  split; [|split].
  - rewrite ff_entries_exact by exact Hexact.
    destruct nq as [|nq]; [lia|]. simpl. f_equal. ring.
  - rewrite ff_entries_exact by exact Hexact.
    assert (Hseq : seq 0 nq = seq 0 (nq - 1) ++ [(nq - 1)%nat]).
    { replace nq with (S (nq - 1)) at 1 by lia. now rewrite seq_S. }
    rewrite Hseq, map_app. cbn [map]. rewrite last_snoc. simpl.
    f_equal. field. lra.
  - now apply ff_entries_increasing.
Qed.

(** X7. Built and read back: a query at a tabulated wave-vector other than the
    last returns the overlap integral [A] computed for it. *)
Theorem ff_entries_lookup_round_trip (q_max : R) (nq iq : nat) :
  (2 <= nq)%nat -> (Z.of_nat nq <= 2 ^ 24)%Z -> 0 < q_max ->
  (iq + 1 < nq)%nat ->
  lookup_ff (ff_entries integral q_max isb jsb fsb gsb nq)
            (q_max / INR (nq - 1) * INR iq) nq
    = Value (A integral (q_max / INR (nq - 1) * INR iq) isb jsb fsb gsb).
Proof.
  intros Hnq Hexact Hq Hiq.
  pose proof (ff_entries_increasing q_max nq Hnq Hexact Hq) as Hinc.
  pose proof (ff_entries_length q_max nq) as Hlen.
  set (table := ff_entries integral q_max isb jsb fsb gsb nq) in *.
  set (g := fun iq => {| a := q_max / INR (nq - 1) * INR iq;
                         b := A integral (q_max / INR (nq - 1) * INR iq)
                                isb jsb fsb gsb |}).
  assert (Hat : forall i, (i < nq)%nat -> table !! i = Some (g i)).
  { intros i Hi. unfold table. rewrite ff_entries_exact by exact Hexact.
    now apply lookup_samples. }
  assert (Hsplit : table = take iq table ++ g iq :: g (iq + 1)%nat
                             :: drop (S (S iq)) table).
  { rewrite <- (take_drop_middle table iq (g iq)) at 1 by (apply Hat; lia).
    f_equal. f_equal.
    rewrite <- (take_drop_middle (drop (S iq) table) 0 (g (iq + 1)%nat)).
    - simpl. rewrite drop_drop. do 2 f_equal. lia.
    - rewrite lookup_drop. replace (S iq + 0)%nat with (iq + 1)%nat by lia.
      apply Hat. lia. }
  rewrite Hsplit in Hinc, Hlen |- *.
  exact (lookup_ff_stored _ _ (g iq) (g (iq + 1)%nat) nq Hlen Hinc).
Qed.

End FormFactorTable.

(** ** The quadrature stays inside the table *)

Section Quadrature.
Import Srcc.
Context {C : Constants}.

(** X8. The difference of two wave-vectors of lengths [ki] and [kj] is never a
    NaN, and its length lies between [|ki - kj|] and [ki + kj]. *)
Theorem kij_is_a_triangle_side (ki kj alpha : R) :
  0 <= ki -> 0 <= kj ->
  exists kij,
    kij_of ki kj alpha = Some kij /\ Rabs (ki - kj) <= kij <= ki + kj.
Proof.
  intros Hki Hkj. unfold kij_of.
  pose proof (COS_bound alpha) as [Hc1 Hc2].
  assert (Hprod : 0 <= ki * kj) by now apply Rmult_le_pos.
  set (arg := ki * ki + kj * kj - 2 * ki * kj * cos alpha).
  assert (Hlow : (ki - kj) * (ki - kj) <= arg) by (unfold arg; nra).
  assert (Hhigh : arg <= (ki + kj) * (ki + kj)) by (unfold arg; nra).
  assert (Harg : 0 <= arg).
  { pose proof (Rle_0_sqr (ki - kj)) as Hsq. unfold Rsqr in Hsq. lra. }
  exists (sqrt arg). split; [now apply c_sqrt_nonneg|]. split.
  - rewrite <- sqrt_Rsqr_abs. apply sqrt_le_1_alt. exact Hlow.
  - rewrite <- (sqrt_square (ki + kj)) by lra. apply sqrt_le_1_alt. exact Hhigh.
Qed.

(** X9. Whatever the angle, a wave-vector [q_perp] obtained from a relative
    wave-vector [0 <= kij <= kimax + kjmax] is at most the [q_perp_max] of
    the table, which is then a number. *)
Theorem q_perp_within_q_perp_max (kimax kjmax Deltak0sqr kij theta d : R) :
  0 <= kij <= kimax + kjmax ->
  q_perpsqr4 kij Deltak0sqr theta = Some d ->
  exists q_max,
    q_perp_max kimax kjmax Deltak0sqr = Some q_max /\
    0 <= sqrt d / 2 <= q_max.
Proof.
  intros [Hkij HK]. unfold q_perpsqr4, q_perp_max, c_sqrt.
  destruct (dle 0 (kij * kij + Deltak0sqr)) eqn:Harg; simpl; [|discriminate].
  apply dle_spec in Harg. intros [= <-].
  set (K := kimax + kjmax) in *. unfold gsl_pow_2.
  assert (HKK : kij * kij <= K * K) by nra.
  assert (HargK : 0 <= K * K + Deltak0sqr) by lra.
  pose proof (sqrt_pos (kij * kij + Deltak0sqr)) as Hs.
  pose proof (sqrt_pos (K * K + Deltak0sqr)) as HS.
  assert (HsS : sqrt (kij * kij + Deltak0sqr) <= sqrt (K * K + Deltak0sqr))
    by (apply sqrt_le_1_alt; lra).
  set (s := sqrt (kij * kij + Deltak0sqr)) in *.
  set (S := sqrt (K * K + Deltak0sqr)) in *.
  pose proof (COS_bound theta) as [Hc1 Hc2].
  assert (Hks : 0 <= kij * s) by now apply Rmult_le_pos.
  assert (HkS : kij * s <= K * S) by (apply Rmult_le_compat; lra).
  assert (Hd : 2 * kij * kij + Deltak0sqr - 2 * kij * s * cos theta
               <= 2 * (K * K) + Deltak0sqr + 2 * K * S) by nra.
  assert (Hrad : 0 <= 2 * (K * K) + Deltak0sqr + 2 * K * S) by nra.
  destruct (dle 0 (K * K + Deltak0sqr)) eqn:E1;
    [|apply dle_false in E1; lra].
  simpl. fold S.
  destruct (dle 0 (2 * (K * K) + Deltak0sqr + 2 * K * S)) eqn:E2;
    [|apply dle_false in E2; lra].
  simpl. eexists. split; [reflexivity|].
  pose proof (sqrt_pos (2 * kij * kij + Deltak0sqr - 2 * kij * s * cos theta)).
  pose proof (sqrt_le_1_alt _ _ Hd). lra.
Qed.

(** A lookup whose query does not exceed the last tabulated wave-vector
    does not end the program. *)
Lemma lookup_ff_not_fatal (table : list data11) (nq : nat) (lst : data11)
    (q_perp : R) (msg : string) (status : Z) :
  entry table (Z.of_nat nq - 1) = Value lst -> q_perp <= a lst ->
  lookup_ff table q_perp nq <> Fatal msg status.
Proof.
  intros Hlast Hq. unfold lookup_ff. rewrite Hlast. simpl.
  destruct (dgt q_perp (a lst)) eqn:E; [apply dgt_spec in E; lra|].
  destruct (scan table q_perp 0) as [iq| |] eqn:Hscan; simpl; try discriminate.
  - destruct (entry table (iq - 1)) eqn:Hlo; simpl; try discriminate.
    + destruct (entry table iq) eqn:Hhi; simpl; try discriminate.
      unfold entry in Hhi. destruct (iq <? 0)%Z; [discriminate|].
      destruct (table !! Z.to_nat iq); discriminate.
    + unfold entry in Hlo. destruct (iq - 1 <? 0)%Z; [discriminate|].
      destruct (table !! Z.to_nat (iq - 1)); discriminate.
  - clear -Hscan. exfalso. revert Hscan. generalize 0%Z.
    induction table as [|x t IH]; intros z; simpl; [discriminate|].
    destruct (dge q_perp (a x)); [apply IH | discriminate].
Qed.

(** X10. With both tables ending at [q_perp_max], no theta sample of the
    quadrature over [0 <= kij <= kimax + kjmax] ends the program with the
    range diagnostic. *)
Theorem theta_step_never_out_of_range (Aijfg PIii : list data11) (nq : nat)
    (lastA lastPI : data11)
    (kimax kjmax epsilon Deltak0sqr P kj kij theta Wijfg q_max : R)
    (msg : string) (status : Z) :
  entry Aijfg (Z.of_nat nq - 1) = Value lastA ->
  entry PIii (Z.of_nat nq - 1) = Value lastPI ->
  q_perp_max kimax kjmax Deltak0sqr = Some q_max ->
  a lastA = q_max -> a lastPI = q_max ->
  0 <= kij <= kimax + kjmax ->
  theta_step Aijfg PIii nq epsilon Deltak0sqr P kj kij theta Wijfg
    <> Fatal msg status.
Proof.
  intros HA HPI Hmax HqA HqPI Hkij. unfold theta_step, theta_update.
  destruct (q_perpsqr4 kij Deltak0sqr theta) as [d|] eqn:Hd; [|discriminate].
  destruct (dge d 0) eqn:Hd0; [|discriminate]. apply dge_spec in Hd0.
  rewrite c_sqrt_nonneg by lra.
  destruct (q_perp_within_q_perp_max _ _ _ _ _ _ Hkij Hd) as (q' & Hq' & Hle).
  rewrite Hmax in Hq'. injection Hq' as <-.
  pose proof (lookup_ff_not_fatal Aijfg nq lastA (sqrt d / 2)) as HnA.
  pose proof (lookup_ff_not_fatal PIii nq lastPI (sqrt d / 2)) as HnPI.
  change lookup_PI with lookup_ff.
  destruct (lookup_ff Aijfg (sqrt d / 2) nq) as [ff|m s|] eqn:HlA; simpl;
    [| intros [= -> ->]; eapply HnA; eauto; lra | discriminate].
  destruct (lookup_ff PIii (sqrt d / 2) nq) as [sc|m s|] eqn:HlPI; simpl;
    [discriminate | intros [= -> ->]; eapply HnPI; eauto; lra | discriminate].
Qed.

(** Where no divisor is zero the update is the formula of the code over the
    reals. *)
Lemma theta_update_regular (Aijfg PIii : list data11) (nq : nat)
    (epsilon P kj d Wijfg ff sc : R) :
  0 <= d ->
  lookup_ff Aijfg (sqrt d / 2) nq = Value ff ->
  lookup_PI PIii (sqrt d / 2) nq = Value sc ->
  epsilon <> 0 ->
  sqrt d / 2 + 2 * pi * e * e * sc * ff / (4 * pi * epsilon) <> 0 ->
  theta_update Aijfg PIii nq epsilon P kj (Some d) Wijfg
    = Value (Some (Wijfg
                   + gsl_pow_2 (ff / (sqrt d / 2
                                      + 2 * pi * e * e * sc * ff
                                        / (4 * pi * epsilon)))
                     * P * kj)).
Proof.
  intros Hd Hff Hsc Heps HD. unfold theta_update.
  destruct (dge d 0) eqn:E; [|apply dge_false in E; lra].
  rewrite c_sqrt_nonneg by exact Hd. rewrite Hff, Hsc. simpl.
  pose proof PI_RGT_0 as Hpi. unfold pi in *.
  rewrite c_div_number by nra.
  rewrite c_div_number by exact HD. reflexivity.
Qed.

(** Where the form factor is divided by zero, as at [q_perp = 0] without
    screening, [Wijfg] is an infinity or a NaN from then on. *)
Lemma theta_update_pole (Aijfg PIii : list data11) (nq : nat)
    (epsilon P kj d Wijfg ff sc : R) :
  0 <= d ->
  lookup_ff Aijfg (sqrt d / 2) nq = Value ff ->
  lookup_PI PIii (sqrt d / 2) nq = Value sc ->
  epsilon <> 0 ->
  sqrt d / 2 + 2 * pi * e * e * sc * ff / (4 * pi * epsilon) = 0 ->
  theta_update Aijfg PIii nq epsilon P kj (Some d) Wijfg = Value None.
Proof.
  intros Hd Hff Hsc Heps HD. unfold theta_update.
  destruct (dge d 0) eqn:E; [|apply dge_false in E; lra].
  rewrite c_sqrt_nonneg by exact Hd. rewrite Hff, Hsc. simpl.
  pose proof PI_RGT_0 as Hpi. unfold pi in *.
  rewrite c_div_number by nra.
  rewrite HD. now rewrite c_div_by_zero.
Qed.

(** X11. A theta sample never lowers the accumulated rate: for an occupation
    [P >= 0] and a wave-vector [kj >= 0], whenever the step ends with a
    number it is at least the old [Wijfg]. *)
Theorem theta_update_never_decreases (Aijfg PIii : list data11) (nq : nat)
    (epsilon P kj Wijfg : R) (q4 : dbl) :
  0 <= P -> 0 <= kj ->
  match theta_update Aijfg PIii nq epsilon P kj q4 Wijfg with
  | Value (Some Wijfg') => Wijfg <= Wijfg'
  | _ => True
  end.
Proof.
  intros HP Hkj. unfold theta_update.
  assert (Hterm : forall x, Wijfg <= Wijfg + gsl_pow_2 x * P * kj).
  { intros x. pose proof (Rle_0_sqr x) as Hsq. unfold Rsqr in Hsq.
    unfold gsl_pow_2. set (y := x * x) in *.
    assert (0 <= y * P) by now apply Rmult_le_pos.
    assert (0 <= y * P * kj) by now apply Rmult_le_pos.
    lra. }
  destruct q4 as [d|]; [|lra].
  destruct (dge d 0); [|lra].
  destruct (c_sqrt d) as [root|]; [|exact I].
  destruct (lookup_ff Aijfg (root / 2) nq) as [ff| |]; simpl; try exact I.
  destruct (lookup_PI PIii (root / 2) nq) as [sc| |]; simpl; try exact I.
  destruct (c_div (2 * pi * e * e * sc * ff) (4 * pi * epsilon))
    as [screening| |]; [|apply Hterm | exact I].
  destruct (c_div ff (root / 2 + screening)) as [ratio| |]; simpl;
    [apply Hterm | exact I | exact I].
Qed.

End Quadrature.

Lemma kij_is_a_triangle_side_witness :
  exists kij,
    Srcc.kij_of 3 4 (Rtrigo1.PI / 2) = Some kij /\ Rabs (3 - 4) <= kij <= 3 + 4.
Proof. apply (kij_is_a_triangle_side 3 4 (Rtrigo1.PI / 2)); lra. Defined.

Lemma q_perp_within_q_perp_max_witness :
  exists q_max, Srcc.q_perp_max 1 1 0 = Some q_max /\ 0 <= sqrt 2 / 2 <= q_max.
Proof.
  apply (q_perp_within_q_perp_max 1 1 0 1 (Rtrigo1.PI / 2) 2); [lra|].
  unfold Srcc.q_perpsqr4. rewrite c_sqrt_nonneg by lra. simpl.
  rewrite cos_PI2. f_equal. ring.
Defined.

(** ** The screening table *)

Section ScreeningTable.
Import Srcc.
Context {C : Constants}.
Variable isb : Subband.
Variable T : R.

Lemma PI_nonneg (fuel : nat) (q_perp v : R) :
  0 < T -> 0 < get_md_0 isb ->
  PI fuel isb q_perp T = Some v -> 0 <= v.
Proof.
  intros HT Hm. unfold PI.
  destruct (PI_run fuel isb q_perp T) as [[v' n]|] eqn:Hrun; [|discriminate].
  simpl. intros [= <-]. rewrite PI_run_start in Hrun.
  apply PI_loop_result in Hrun as (_ & -> & _).
  pose proof (partial_integral_grows isb q_perp T HT Hm 0 n) as Hgrow.
  exact Hgrow.
Qed.

(** X13. For a temperature [T > 0] and a positive band-edge mass the
    polarizability returned by [PI] is never negative, at any wave-vector
    and however many passes the loop took. *)
Theorem PI_is_not_negative (fuel : nat) (q_perp : R) :
  0 < T -> 0 < get_md_0 isb ->
  match PI fuel isb q_perp T with
  | Some v => 0 <= v
  | None => True
  end.
Proof.
  intros HT Hm. destruct (PI fuel isb q_perp T) as [v|] eqn:Hv; [|exact I].
  now apply PI_nonneg with fuel q_perp.
Qed.

Lemma PI_loop_more_fuel (fuel : nat) (q_perp mu integral : R) (n : nat)
    (r : R * nat) :
  PI_loop fuel isb q_perp T mu integral n = Some r ->
  PI_loop (S fuel) isb q_perp T mu integral n = Some r.
Proof.
  revert mu integral n. induction fuel as [|fuel IH]; intros mu integral n;
    [discriminate|].
  intros Hrun.
  change (PI_loop (S (S fuel)) isb q_perp T mu integral n)
    with (let dI := dI_at isb q_perp T mu in
          let integral := integral + dI * dmu in
          let mu := mu + dmu in
          if dgt dI (integral / 100)
          then PI_loop (S fuel) isb q_perp T mu integral (S n)
          else Some (integral, S n)).
  change (PI_loop (S fuel) isb q_perp T mu integral n)
    with (let dI := dI_at isb q_perp T mu in
          let integral := integral + dI * dmu in
          let mu := mu + dmu in
          if dgt dI (integral / 100)
          then PI_loop fuel isb q_perp T mu integral (S n)
          else Some (integral, S n)) in Hrun.
  cbv zeta in *. destruct (dgt _ _); [now apply IH | exact Hrun].
Qed.

(** More passes allowed do not change a finished integral. *)
Lemma PI_more_fuel (fuel fuel' : nat) (q_perp v : R) :
  (fuel <= fuel')%nat ->
  PI fuel isb q_perp T = Some v -> PI fuel' isb q_perp T = Some v.
Proof.
  intros Hle. induction Hle as [|fuel' _ IH]; [auto|].
  intros Hv. specialize (IH Hv). unfold PI, PI_run in *.
  destruct (PI_loop fuel' isb q_perp T (get_E isb) 0 0) as [r|] eqn:Hrun;
    [|discriminate].
  now rewrite (PI_loop_more_fuel _ _ _ _ _ _ Hrun).
Qed.

Lemma PI_finishes (q_perp : R) :
  0 < T -> 0 < get_md_0 isb ->
  exists fuel0 v, forall fuel, (fuel0 <= fuel)%nat ->
    PI fuel isb q_perp T = Some v.
Proof.
  intros HT Hm.
  destruct (PI_run_terminates isb q_perp T HT Hm) as (fuel0 & v & n & Hrun).
  exists fuel0, v. intros fuel Hle. apply PI_more_fuel with fuel0; [exact Hle|].
  unfold PI. now rewrite Hrun.
Qed.

(** An answered lookup is an interpolation between two entries of the
    table. *)
Lemma lookup_ff_value (table : list data11) (nq : nat) (q_perp v : R) :
  lookup_ff table q_perp nq = Value v ->
  exists lo hi, lo ∈ table /\ hi ∈ table /\ v = interpolate lo hi q_perp.
Proof.
  assert (Hentry : forall i en, entry table i = Value en -> en ∈ table).
  { intros i en. unfold entry. destruct (i <? 0)%Z; [discriminate|].
    destruct (table !! Z.to_nat i) eqn:Hi; [|discriminate].
    intros [= <-]. now apply list_elem_of_lookup_2 with (Z.to_nat i). }
  unfold lookup_ff.
  destruct (entry table (Z.of_nat nq - 1)) as [lst| |]; simpl; try discriminate.
  destruct (dgt q_perp (a lst)); [discriminate|].
  destruct (scan table q_perp 0) as [iq| |]; simpl; try discriminate.
  destruct (entry table (iq - 1)) as [lo| |] eqn:Hlo; simpl; try discriminate.
  destruct (entry table iq) as [hi| |] eqn:Hhi; simpl; try discriminate.
  intros [= <-]. exists lo, hi. eauto.
Qed.

(** *** Screening switched off *)

Lemma PI_table_from_unscreened (fuel : nat) (Aijfg : list data11) (i n : nat) :
  (i + n = length Aijfg)%nat ->
  PI_table_from fuel Aijfg isb T false (seq i n)
    = Some (Value (map (fun en => {| a := a en; b := 0 |}) (drop i Aijfg))).
Proof.
  revert i. induction n as [|n IH]; intros i Hlen; simpl.
  - rewrite drop_ge by lia. reflexivity.
  - destruct (lookup_lt_is_Some_2 Aijfg i ltac:(lia)) as [en Hen].
    rewrite (entry_lookup _ _ _ Hen), IH by lia.
    now rewrite (drop_S _ _ _ Hen).
Qed.

(** X14. With screening switched off the table is built without evaluating any
    integral (for any [fuel], even none): it repeats the wave-vectors of
    the form-factor table with the value 0, and every lookup it answers
    returns 0. *)
Theorem PI_table_without_screening (fuel : nat) (Aijfg : list data11)
    (nq : nat) :
  length Aijfg = nq ->
  exists PIii,
    PI_table fuel Aijfg isb T nq false = Some (Value PIii) /\
    PIii = map (fun en => {| a := a en; b := 0 |}) Aijfg /\
    forall q_perp v, lookup_PI PIii q_perp nq = Value v -> v = 0.
Proof.
  intros Hlen. eexists. split; [|split; [reflexivity|]].
  - unfold PI_table. rewrite PI_table_from_unscreened by lia. reflexivity.
  - intros q_perp v Hv. change lookup_PI with lookup_ff in Hv.
    apply lookup_ff_value in Hv as (lo & hi & Hlo & Hhi & ->).
    apply list_elem_of_fmap in Hlo as (lo' & -> & _).
    apply list_elem_of_fmap in Hhi as (hi' & -> & _).
    unfold interpolate. simpl. unfold Rdiv. ring.
Qed.

(** *** Screening switched on *)

Lemma PI_table_from_screened (Aijfg : list data11) (i n : nat) :
  0 < T -> 0 < get_md_0 isb ->
  (i + n = length Aijfg)%nat ->
  exists fuel0 PIii,
    (forall fuel, (fuel0 <= fuel)%nat ->
       PI_table_from fuel Aijfg isb T true (seq i n) = Some (Value PIii)) /\
    map a PIii = map a (drop i Aijfg) /\
    Forall (fun en => 0 <= b en) PIii.
Proof.
  intros HT Hm. revert i. induction n as [|n IH]; intros i Hlen.
  - exists 0%nat, []. split; [reflexivity|].
    rewrite drop_ge by lia. split; [reflexivity | constructor].
  - destruct (lookup_lt_is_Some_2 Aijfg i ltac:(lia)) as [en Hen].
    destruct (IH (S i) ltac:(lia)) as (f2 & rest & Hrest & Hcol & Hpos).
    destruct (PI_finishes (a en) HT Hm) as (f1 & v & Hv).
    exists (Nat.max f1 f2), ({| a := a en; b := v |} :: rest).
    split; [|split].
    + intros fuel Hfuel. simpl.
      rewrite (entry_lookup _ _ _ Hen), Hv, Hrest by lia. reflexivity.
    + rewrite (drop_S _ _ _ Hen). simpl. now rewrite Hcol.
    + constructor; [|exact Hpos]. simpl.
      apply PI_nonneg with f1 (a en); auto.
Qed.

(** X15. With screening switched on, a temperature [T > 0] and a positive
    band-edge mass, [PI_table] completes: it returns a table on the same
    wave-vectors as the form-factor table whose values are not negative. *)
Theorem PI_table_with_screening (Aijfg : list data11) (nq : nat) :
  0 < T -> 0 < get_md_0 isb -> length Aijfg = nq ->
  exists fuel PIii,
    PI_table fuel Aijfg isb T nq true = Some (Value PIii) /\
    map a PIii = map a Aijfg /\
    Forall (fun en => 0 <= b en) PIii.
Proof.
  intros HT Hm Hlen.
  destruct (PI_table_from_screened Aijfg 0 nq HT Hm ltac:(lia))
    as (fuel0 & PIii & Hrun & Hcol & Hpos).
  exists fuel0, PIii. split; [apply Hrun; lia|]. split; [exact Hcol | exact Hpos].
Qed.

End ScreeningTable.

(** ** More on the accumulators and the overlap integral *)

Section Overlap.
Import Srcc.

Lemma Rsum_map_le (f g : nat -> R) (l : list nat) :
  (forall i, i ∈ l -> f i <= g i) -> Rsum (map f l) <= Rsum (map g l).
Proof.
  unfold Rsum. induction l as [|i l IH]; intros Hfg; simpl; [lra|].
  assert (f i <= g i) by (apply Hfg; constructor).
  assert (foldr Rplus 0 (map f l) <= foldr Rplus 0 (map g l)).
  { apply IH. intros j Hj. apply Hfg. now constructor. }
  lra.
Qed.

Lemma Rsum_map_abs (f : nat -> R) (l : list nat) :
  Rabs (Rsum (map f l)) <= Rsum (map (fun i => Rabs (f i)) l).
Proof.
  unfold Rsum. induction l as [|i l IH]; simpl; [rewrite Rabs_R0; lra|].
  eapply Rle_trans; [apply Rabs_triang|]. lra.
Qed.

(** X16. The array of exponentials starts at 1 and has no zero; on a grid in
    increasing order and for [q >= 0] every entry is at least 1, so that
    the divisions of the accumulators are by numbers [>= 1]. *)
Theorem exp_qz_is_at_least_one (q_perp : R) (z : list R) (iz : nat) :
  (iz < length z)%nat ->
  0 <= q_perp -> (forall i, (i < length z)%nat -> rd z 0 <= rd z i) ->
  rd (find_exp_qz q_perp z) 0 = 1 /\
  1 <= rd (find_exp_qz q_perp z) iz.
Proof.
  intros Hiz Hq Hz. unfold find_exp_qz. rewrite !rd_map by lia.
  split.
  - replace (q_perp * (rd z 0 - rd z 0)) with 0 by ring. apply exp_0.
  - rewrite <- exp_0. specialize (Hz iz Hiz).
    destruct (Req_dec (q_perp * (rd z iz - rd z 0)) 0) as [->|Hne]; [lra|].
    left. apply exp_increasing. nra.
Qed.

(** X17. At [q = 0] the matrix element is the same at every grid point: the
    plain sum of the wave-function products times the step, on any grid. *)
Theorem Iif_at_zero_wave_vector (z psi_jg : list R) (iz0 : nat) :
  (2 <= length z)%nat -> (iz0 < length z)%nat ->
  Iif_fast z psi_jg 0 iz0
    = Rsum (map (fun iz => rd psi_jg iz * (rd z 1 - rd z 0)) (seq 0 (length z))).
Proof.
  intros Hnz Hiz0. unfold Iif_fast, Iif.
  rewrite find_Cif_m_sums, find_Cif_p_sums by lia.
  assert (Hone : forall iz, (iz < length z)%nat -> rd (find_exp_qz 0 z) iz = 1).
  { intros iz Hiz. unfold find_exp_qz. rewrite rd_map by exact Hiz.
    replace (0 * (rd z iz - rd z 0)) with 0 by ring. apply exp_0. }
  rewrite Hone by exact Hiz0.
  assert (Hsplit : seq 0 (length z) = seq 0 iz0 ++ seq iz0 (length z - iz0)).
  { change iz0 with (0 + iz0)%nat at 2.
    rewrite <- (seq_app iz0 (length z - iz0) 0). f_equal. lia. }
  rewrite Hsplit, map_app, Rsum_app.
  replace (Rsum (map (fun iz => rd psi_jg iz * rd (find_exp_qz 0 z) iz
                                * (rd z 1 - rd z 0)) (seq 0 iz0)))
    with (Rsum (map (fun iz => rd psi_jg iz * (rd z 1 - rd z 0)) (seq 0 iz0))).
  2:{ apply Rsum_map_ext. intros iz Hiz. apply elem_of_seq in Hiz.
      rewrite Hone by lia. ring. }
  replace (Rsum (map (fun iz => rd psi_jg iz / rd (find_exp_qz 0 z) iz
                                * (rd z 1 - rd z 0)) (seq iz0 (length z - iz0))))
    with (Rsum (map (fun iz => rd psi_jg iz * (rd z 1 - rd z 0))
                    (seq iz0 (length z - iz0)))).
  2:{ apply Rsum_map_ext. intros iz Hiz. apply elem_of_seq in Hiz.
      rewrite Hone by lia. field. }
  field.
Qed.

(** X18. On a uniform grid and for [q >= 0] the matrix element is bounded, at
    every grid point, by the sum of the absolute wave-function products
    times the step. *)
Theorem Iif_is_bounded (z psi_jg : list R) (q_perp : R) (iz0 : nat) :
  (2 <= length z)%nat -> uniform_grid z -> 0 <= q_perp ->
  (iz0 < length z)%nat ->
  Rabs (Iif_fast z psi_jg q_perp iz0)
    <= Rsum (map (fun iz => Rabs (rd psi_jg iz) * (rd z 1 - rd z 0))
                 (seq 0 (length z))).
Proof.
  intros Hnz Hgrid Hq Hiz0.
  rewrite Iif_fast_on_sorted_grid;
    [| exact Hnz | exact Hiz0 | intros i j; now apply uniform_grid_sorted].
  unfold Iif_bruteforce.
  eapply Rle_trans; [apply Rsum_map_abs|].
  apply Rsum_map_le. intros iz _.
  destruct Hgrid as [Hdz _].
  rewrite !Rabs_mult, (Rabs_pos_eq (rd z 1 - rd z 0)) by lra.
  rewrite (Rabs_pos_eq (exp _)) by (left; apply exp_pos).
  assert (Hexp : exp (- q_perp * Rabs (rd z iz - rd z iz0)) <= 1).
  { rewrite <- exp_0. pose proof (Rabs_pos (rd z iz - rd z iz0)) as Habs.
    destruct (Req_dec (- q_perp * Rabs (rd z iz - rd z iz0)) 0) as [->|Hne]; [lra|].
    left. apply exp_increasing. nra. }
  pose proof (Rabs_pos (rd psi_jg iz)) as Hpsi.
  assert (Hw : 0 <= Rabs (rd psi_jg iz) * (rd z 1 - rd z 0))
    by (apply Rmult_le_pos; lra).
  set (E := exp (- q_perp * Rabs (rd z iz - rd z iz0))) in *.
  replace (Rabs (rd psi_jg iz) * E * (rd z 1 - rd z 0))
    with (Rabs (rd psi_jg iz) * (rd z 1 - rd z 0) * E) by ring.
  rewrite <- (Rmult_1_r (Rabs (rd psi_jg iz) * (rd z 1 - rd z 0))) at 2.
  apply Rmult_le_compat_l; assumption.
Qed.

(** X19. The overlap integral [A], computed through the two accumulators, is
    the integral of [psi_i psi_f] times the rectangle-rule sum of
    [psi_j psi_g exp(-q|z - z'|) dz]: the double integral, whatever the
    integration rule of the outer integral. *)
Theorem A_is_the_double_integral (integral : list R -> R -> R)
    (q_perp : R) (isb jsb fsb gsb : state) :
  (2 <= length (z_array isb))%nat -> uniform_grid (z_array isb) ->
  A integral q_perp isb jsb fsb gsb
    = integral
        (map (fun iz =>
                rd (zip_with Rmult (psi_array isb) (psi_array fsb)) iz
                * Iif_bruteforce (z_array isb)
                    (zip_with Rmult (psi_array jsb) (psi_array gsb)) q_perp iz)
             (seq 0 (length (z_array isb))))
        (rd (z_array isb) 1 - rd (z_array isb) 0).
Proof.
  intros Hnz Hgrid. unfold A. f_equal.
  apply map_ext_in. intros iz Hiz. apply in_seq in Hiz. f_equal.
  apply (Iif_fast_on_sorted_grid (z_array isb)); [exact Hnz | lia |].
  intros i j. now apply uniform_grid_sorted.
Qed.

End Overlap.

(** ** Density of states *)

Section DensityOfStates.
Import Dos.
Context {C : Constants}.

(** A loop over the indices of an array that only reads the current element
    is a fold over the array. *)
Lemma foldl_over_indices (f : R -> R -> R) (pre rest : list R) (acc : R) :
  foldl (fun acc i => f acc (rd (pre ++ rest) i)) acc
        (seq (length pre) (length rest))
    = foldl f acc rest.
Proof.
  revert pre acc. induction rest as [|x rest IH]; intros pre acc; simpl;
    [reflexivity|].
  assert (Hx : rd (pre ++ x :: rest) (length pre) = x).
  { unfold rd. rewrite nth_lookup, list_lookup_middle by reflexivity.
    reflexivity. }
  rewrite Hx.
  replace (pre ++ x :: rest) with ((pre ++ [x]) ++ rest)
    by (rewrite <- app_assoc; reflexivity).
  replace (S (length pre)) with (length (pre ++ [x]))
    by (rewrite length_app; simpl; lia).
  apply IH.
Qed.

Lemma step_sum (E_carrier d : R) (E_subbands : list R) (acc : R) :
  foldl (fun dos_total E_sb =>
           if dgt E_carrier E_sb then dos_total + d else dos_total)
        acc E_subbands
    = acc + INR (length (occupied E_carrier E_subbands)) * d.
Proof.
  revert acc. unfold occupied.
  induction E_subbands as [|E_sb rest IH]; intros acc; simpl; [ring|].
  rewrite IH. destruct (dgt E_carrier E_sb); [|reflexivity].
  change (length (E_sb :: List.filter (fun E_sb0 => dgt E_carrier E_sb0) rest))
    with (S (length (List.filter (fun E_sb0 => dgt E_carrier E_sb0) rest))).
  rewrite S_INR. ring.
Qed.

(** X20. The density of states of a quantum well is that of one subband times
    the number of subband minima strictly below the carrier energy; a
    minimum equal to the carrier energy does not count. *)
Theorem dos_2D_counts_subbands_below (mass E_carrier : R)
    (E_subbands : list R) (V alpha : R) :
  calculate_dos_2D mass E_carrier E_subbands V alpha
    = INR (length (occupied E_carrier E_subbands))
      * dos_1sb mass E_carrier V alpha /\
  Forall (fun E_sb => E_sb < E_carrier) (occupied E_carrier E_subbands) /\
  (Forall (fun E_sb => E_carrier <= E_sb) E_subbands ->
     calculate_dos_2D mass E_carrier E_subbands V alpha = 0).
Proof.
  assert (Hcount : calculate_dos_2D mass E_carrier E_subbands V alpha
            = INR (length (occupied E_carrier E_subbands))
              * dos_1sb mass E_carrier V alpha).
  { unfold calculate_dos_2D.
    rewrite (foldl_over_indices
               (fun dos_total E_sb =>
                  if dgt E_carrier E_sb
                  then dos_total + dos_1sb mass E_carrier V alpha
                  else dos_total) [] E_subbands 0).
    rewrite step_sum. ring. }
  split; [exact Hcount|]. split.
  - unfold occupied. apply Forall_forall. intros E_sb Hin.
    apply list_elem_of_In, filter_In in Hin as [_ Hlt].
    now apply dgt_spec in Hlt.
  - intros Hall. rewrite Hcount.
    replace (occupied E_carrier E_subbands) with (@nil R); [simpl; ring|].
    clear Hcount.
    unfold occupied. induction Hall as [|E_sb rest Hle _ IH]; [reflexivity|].
    simpl. destruct (dgt E_carrier E_sb) eqn:E;
      [apply dgt_spec in E; lra | exact IH].
Qed.

Lemma occupied_grows (E E' : R) (E_subbands : list R) :
  E <= E' ->
  (length (occupied E E_subbands) <= length (occupied E' E_subbands))%nat.
Proof.
  intros HE. unfold occupied.
  induction E_subbands as [|E_sb rest IH]; simpl; [lia|].
  destruct (dgt E E_sb) eqn:H1, (dgt E' E_sb) eqn:H2; simpl; try lia.
  apply dgt_spec in H1. apply dgt_false in H2. lra.
Qed.

(** X21. For parabolic subbands ([alpha = 0]) and a mass that is not negative,
    the density of states of a quantum well is a staircase: it does not
    decrease when the carrier energy rises. *)
Theorem dos_2D_parabolic_is_a_staircase (mass E E' : R) (E_subbands : list R)
    (V : R) :
  0 <= mass -> E <= E' ->
  calculate_dos_2D mass E E_subbands V 0
    <= calculate_dos_2D mass E' E_subbands V 0.
Proof.
  intros Hm HE.
  destruct (dos_2D_counts_subbands_below mass E E_subbands V 0) as [-> _].
  destruct (dos_2D_counts_subbands_below mass E' E_subbands V 0) as [-> _].
  assert (Hstep : forall E0, dos_1sb mass E0 V 0 = mass / (pi * gsl_pow_2 hBar)).
  { intros E0. unfold dos_1sb, Rdiv. ring. }
  rewrite !Hstep.
  assert (0 <= mass / (pi * gsl_pow_2 hBar)).
  { apply quotient_nonneg; [exact Hm|]. unfold gsl_pow_2, pi.
    pose proof PI_RGT_0. pose proof hBar_pos.
    apply Rmult_lt_0_compat; [lra | now apply Rmult_lt_0_compat]. }
  apply Rmult_le_compat_r; [assumption|].
  apply le_INR. now apply occupied_grows.
Qed.

Lemma wire_sum (E_carrier c : R) (E_subbands : list R) (acc : R) :
  foldl (fun dos_total E_sb =>
           if dgt E_carrier E_sb
           then dos_total + c / (pi * sqrt (E_carrier - E_sb))
           else dos_total)
        acc E_subbands
    = acc + Rsum (map (fun E_sb => c / (pi * sqrt (E_carrier - E_sb)))
                      (occupied E_carrier E_subbands)).
Proof.
  revert acc. unfold occupied, Rsum.
  induction E_subbands as [|E_sb rest IH]; intros acc; simpl; [ring|].
  rewrite IH. destruct (dgt E_carrier E_sb); simpl; ring.
Qed.

(** X22. The density of states of a quantum wire is the sum, over the subband
    minima strictly below the carrier energy, of
    [sqrt(2m)/hBar/(pi sqrt(E - E_sb))]: the square root in the
    denominator is only taken of positive numbers.  For a mass that is not
    negative it is not negative, and for a positive mass it is positive
    exactly when some subband lies below the carrier energy. *)
Theorem dos_1D_sums_subbands_below (mass E_carrier : R)
    (E_subbands : list R) :
  0 <= mass ->
  calculate_dos_1D mass E_carrier E_subbands
    = Rsum (map (fun E_sb =>
                   sqrt (2 * mass) / hBar / (pi * sqrt (E_carrier - E_sb)))
                (occupied E_carrier E_subbands)) /\
  Forall (fun E_sb => 0 < E_carrier - E_sb) (occupied E_carrier E_subbands) /\
  0 <= calculate_dos_1D mass E_carrier E_subbands /\
  (0 < mass ->
     (0 < calculate_dos_1D mass E_carrier E_subbands
      <-> occupied E_carrier E_subbands <> [])).
Proof.
  intros Hm.
  assert (Hsum : calculate_dos_1D mass E_carrier E_subbands
            = Rsum (map (fun E_sb =>
                   sqrt (2 * mass) / hBar / (pi * sqrt (E_carrier - E_sb)))
                (occupied E_carrier E_subbands))).
  { unfold calculate_dos_1D.
    rewrite (foldl_over_indices
               (fun dos_total E_sb =>
                  if dgt E_carrier E_sb
                  then dos_total
                       + sqrt (2 * mass) / hBar / (pi * sqrt (E_carrier - E_sb))
                  else dos_total) [] E_subbands 0).
    rewrite wire_sum. ring. }
  assert (Hbelow : Forall (fun E_sb => 0 < E_carrier - E_sb)
                     (occupied E_carrier E_subbands)).
  { unfold occupied. apply Forall_forall. intros E_sb Hin.
    apply list_elem_of_In, filter_In in Hin as [_ Hlt].
    apply dgt_spec in Hlt. lra. }
  assert (Hterm : forall E_sb, 0 < E_carrier - E_sb ->
            0 <= sqrt (2 * mass) / hBar / (pi * sqrt (E_carrier - E_sb)) /\
            (0 < mass ->
             0 < sqrt (2 * mass) / hBar / (pi * sqrt (E_carrier - E_sb)))).
  { intros E_sb Hpos. pose proof PI_RGT_0. pose proof hBar_pos.
    assert (0 < pi * sqrt (E_carrier - E_sb)).
    { apply Rmult_lt_0_compat; [unfold pi; lra | now apply sqrt_lt_R0]. }
    split.
    - apply quotient_nonneg; [|assumption].
      apply quotient_nonneg; [apply sqrt_pos | assumption].
    - intros Hmass. apply Rdiv_lt_0_compat; [|assumption].
      apply Rdiv_lt_0_compat; [apply sqrt_lt_R0; lra | assumption]. }
  split; [exact Hsum|]. split; [exact Hbelow|].
  rewrite Hsum. clear Hsum.
  induction Hbelow as [|E_sb rest Hpos _ IH]; simpl.
  - split; [unfold Rsum; simpl; lra|]. intros _. unfold Rsum. simpl.
    split; [lra | congruence].
  - destruct IH as [IH0 IH1]. destruct (Hterm E_sb Hpos) as [Ht0 Ht1].
    unfold Rsum in *. simpl. split; [lra|].
    intros Hmass. specialize (Ht1 Hmass). split; [congruence | lra].
Qed.

End DensityOfStates.

(** ** More on the phonon kernel *)

Section PhononIntegrand.
Import Srelo.
Context {C : Constants}.
Variable cfg : setup.

(** X23. Where screening applies, [Kz_2] becomes [(Kz^2 + lambda_s_sq)^2 / Kz^2];
    for a screening length squared that is not negative this is at least
    the unscreened [Kz^2]. *)
Theorem screened_Kz_2 (Kz : list R) (iKz : nat) :
  S_flag cfg = true -> iKz <> 0%nat -> rd Kz iKz <> 0 ->
  Kz_2_at cfg Kz iKz
    = Some (gsl_pow_2 (rd Kz iKz * rd Kz iKz + lambda_s_sq cfg)
            / (rd Kz iKz * rd Kz iKz)) /\
  (0 <= lambda_s_sq cfg ->
   rd Kz iKz * rd Kz iKz
     <= gsl_pow_2 (rd Kz iKz * rd Kz iKz + lambda_s_sq cfg)
        / (rd Kz iKz * rd Kz iKz)).
Proof.
  intros HS HiKz HKz.
  rewrite Kz_2_at_number by (intros _ _; exact HKz). rewrite HS.
  destruct (Nat.eqb_spec iKz 0) as [->|_]; [contradiction|]. simpl.
  split; [reflexivity|].
  pose proof (square_pos _ HKz) as Hsq.
  set (K2 := rd Kz iKz * rd Kz iKz) in *.
  intros Hlambda. unfold gsl_pow_2.
  apply (Rmult_le_reg_r K2); [exact Hsq|].
  unfold Rdiv. rewrite Rmult_assoc, Rinv_l by lra. nra.
Qed.

(** X24. The square root in the integrand over the phonon wave-vector is taken
    of [(Kz_2 - 2 m Delta/hBar^2)^2 + 4 Kz_2 ki^2], which is never negative
    in exact arithmetic, and is zero exactly where [Kz_2] equals
    [2 m Delta/hBar^2] and one of [Kz_2] and [ki] is zero.  Away from
    these points the integrand is a number; at them it divides by zero and
    is an infinity or a NaN. *)
Theorem phonon_integrand_pole (Kz Gifsqr : list R) (ki Delta : R)
    (iKz : nat) (Kz_2 : R) :
  Kz_2_at cfg Kz iKz = Some Kz_2 ->
  let shift := 2 * m cfg * Delta / (hBar * hBar) in
  radicand cfg Kz_2 ki Delta = gsl_pow_2 (Kz_2 - shift) + 4 * Kz_2 * ki * ki /\
  0 <= radicand cfg Kz_2 ki Delta /\
  (radicand cfg Kz_2 ki Delta = 0 <-> Kz_2 = shift /\ (Kz_2 = 0 \/ ki = 0)) /\
  (radicand cfg Kz_2 ki Delta <> 0 ->
     integrand_dKz cfg Kz Gifsqr ki Delta iKz
       = Some (rd Gifsqr iKz / sqrt (radicand cfg Kz_2 ki Delta))) /\
  (radicand cfg Kz_2 ki Delta = 0 ->
     integrand_dKz cfg Kz Gifsqr ki Delta iKz = None).
Proof.
  intros HK. cbv zeta.
  pose proof (Kz_2_at_nonneg _ _ _ _ HK) as HK0.
  destruct (integrand_dKz_value cfg Kz Gifsqr ki Delta iKz Kz_2 HK) as [Hpole Hnum].
  split; [apply radicand_squares|].
  split; [now apply radicand_nonneg|].
  split; [|split; assumption].
  rewrite radicand_squares. unfold gsl_pow_2.
  set (shift := 2 * m cfg * Delta / (hBar * hBar)).
  pose proof (Rle_0_sqr (Kz_2 - shift)) as H1.
  pose proof (Rle_0_sqr ki) as H2. unfold Rsqr in *.
  assert (H3 : 0 <= Kz_2 * (ki * ki)) by now apply Rmult_le_pos.
  split.
  - intros Hzero.
    assert (Hs : (Kz_2 - shift) * (Kz_2 - shift) = 0) by lra.
    assert (Hk : Kz_2 * (ki * ki) = 0) by lra.
    apply Rmult_integral in Hs. split; [lra|].
    apply Rmult_integral in Hk as [Hk|Hk]; [now left|].
    apply Rmult_integral in Hk. right. tauto.
  - intros [HKs Hk].
    assert (Hprod : Kz_2 * (ki * ki) = 0) by (destruct Hk as [-> | ->]; ring).
    replace (Kz_2 - shift) with 0 by lra. lra.
Qed.

End PhononIntegrand.

Section Blocking.
Import Srelo.
Context {C : Constants}.
Variable integral : list R -> R -> R.
Variable cfg : setup.
Variables isb fsb : Subband.

(** X25. Final-state blocking only scales the rates: with occupations between 0
    and 1, each rate with blocking is the rate without blocking times a
    factor between 0 and 1. *)
Theorem blocking_scales_rates_down (Kz Gifsqr : list R) (ki : R) :
  (forall kf T, 0 <= f_FD_k fsb kf T <= 1) ->
  exists ca ce,
    0 <= ca <= 1 /\ 0 <= ce <= 1 /\
    fst (rates_at integral (with_blocking cfg true) isb fsb Kz Gifsqr ki)
      = (fun W => W * ca)
          <$> fst (rates_at integral (with_blocking cfg false) isb fsb Kz Gifsqr ki) /\
    snd (rates_at integral (with_blocking cfg true) isb fsb Kz Gifsqr ki)
      = (fun W => W * ce)
          <$> snd (rates_at integral (with_blocking cfg false) isb fsb Kz Gifsqr ki).
Proof.
  intros Hocc. unfold rates_at. simpl.
  set (fa := f_FD_k fsb (sqrt ((Ek isb ki - Delta_a (with_blocking cfg true) isb fsb)
                                * 2 * m cfg) / hBar) (Te cfg)).
  set (fe := f_FD_k fsb (sqrt ((Ek isb ki - Delta_e (with_blocking cfg true) isb fsb)
                                * 2 * m cfg) / hBar) (Te cfg)).
  pose proof (Hocc (sqrt ((Ek isb ki - Delta_a (with_blocking cfg true) isb fsb)
                          * 2 * m cfg) / hBar) (Te cfg)) as Hfa.
  pose proof (Hocc (sqrt ((Ek isb ki - Delta_e (with_blocking cfg true) isb fsb)
                          * 2 * m cfg) / hBar) (Te cfg)) as Hfe.
  fold fa in Hfa. fold fe in Hfe.
  exists (if dge (Ek isb ki - Delta_a (with_blocking cfg true) isb fsb) 0
          then 1 - fa else 1),
         (if dge (Ek isb ki - Delta_e (with_blocking cfg true) isb fsb) 0
          then 1 - fe else 1).
  change (Delta_a (with_blocking cfg false) isb fsb)
    with (Delta_a (with_blocking cfg true) isb fsb).
  change (Delta_e (with_blocking cfg false) isb fsb)
    with (Delta_e (with_blocking cfg true) isb fsb).
  change (integrand_samples (with_blocking cfg false))
    with (integrand_samples (with_blocking cfg true)).
  destruct (integral_of integral
              (integrand_samples (with_blocking cfg true) Kz Gifsqr ki
                 (Delta_a (with_blocking cfg true) isb fsb)) (dKz cfg)) as [Ia|],
           (integral_of integral
              (integrand_samples (with_blocking cfg true) Kz Gifsqr ki
                 (Delta_e (with_blocking cfg true) isb fsb)) (dKz cfg)) as [Ie|];
    destruct (dge (Ek isb ki - Delta_a (with_blocking cfg true) isb fsb) 0),
             (dge (Ek isb ki - Delta_e (with_blocking cfg true) isb fsb) 0);
    repeat split; try lra; simpl; try reflexivity; f_equal; ring.
Qed.

End Blocking.

(** ** How the input checks nest *)

Section FileIO_nesting.
Import FileIO.

(** X26. A number accepted as positive, or as lying in [[0,1]], is accepted as
    not negative; the only number accepted as not negative and refused as
    positive is 0. *)
Theorem checks_nest (x : R) :
  (~ throws (check_positive x) -> ~ throws (check_not_negative x)) /\
  (~ throws (check_c_interval_0_1 x) -> ~ throws (check_not_negative x)) /\
  (throws (check_positive x) /\ ~ throws (check_not_negative x) <-> x = 0).
Proof.
  rewrite check_positive_throws, check_not_negative_throws,
    check_c_interval_0_1_throws.
  repeat split; intros; lra.
Qed.

End FileIO_nesting.

(** ** Evaluations on concrete inputs *)

Lemma q_perp_max_of_flat_state :
  Srcc.q_perp_max 1 1 0 = Some q_max_of_flat_state.
Proof.
  unfold Srcc.q_perp_max, q_max_of_flat_state.
  assert (H1 : 0 <= gsl_pow_2 (1 + 1) + 0) by (unfold gsl_pow_2; lra).
  rewrite (c_sqrt_nonneg _ H1). simpl.
  pose proof (sqrt_pos (gsl_pow_2 (1 + 1) + 0)) as Hs.
  rewrite c_sqrt_nonneg; [reflexivity|]. unfold gsl_pow_2 in *. nra.
Qed.

Lemma ff_table_covers_zero_to_q_perp_max_witness :
  length (Srcc.ff_entries (fun _ _ => 1) q_max_of_flat_state
            flat_state flat_state flat_state flat_state 3) = 3%nat.
Proof.
  refine (proj1 (ff_table_covers_zero_to_q_perp_max (fun _ _ => 1)
                   flat_state flat_state flat_state flat_state 0 [1] 3 _
                   ltac:(lia) ltac:(lia) _)).
  unfold Srcc.ff_table. simpl k.
  now rewrite q_perp_max_of_flat_state.
Defined.

Lemma ff_entries_lookup_round_trip_witness :
  Srcc.lookup_ff
    (Srcc.ff_entries (fun _ _ => 1) 2 flat_state flat_state flat_state flat_state 3)
    (2 / INR (3 - 1) * INR 1) 3
  = Srcc.Value (Srcc.A (fun _ _ => 1) (2 / INR (3 - 1) * INR 1)
                  flat_state flat_state flat_state flat_state).
Proof.
  apply (ff_entries_lookup_round_trip (fun _ _ => 1)
           flat_state flat_state flat_state flat_state 2 3 1); try lia; lra.
Defined.

Lemma theta_step_never_out_of_range_witness :
  @Srcc.theta_step SI
    [ {| Srcc.a := 0; Srcc.b := 1 |}; {| Srcc.a := q_max_of_flat_state; Srcc.b := 1 |} ]
    [ {| Srcc.a := 0; Srcc.b := 0 |}; {| Srcc.a := q_max_of_flat_state; Srcc.b := 0 |} ]
    2 1 0 1 1 1 0 5
  <> Srcc.Fatal ("q_perp>maximum allowed q!" ++ Srcc.newline) 0.
Proof.
  apply (@theta_step_never_out_of_range SI _ _ 2
           {| Srcc.a := q_max_of_flat_state; Srcc.b := 1 |}
           {| Srcc.a := q_max_of_flat_state; Srcc.b := 0 |}
           1 1 1 0 1 1 1 0 5 q_max_of_flat_state);
    try reflexivity; [apply q_perp_max_of_flat_state | lra].
Defined.

(** A sample that is accumulated: with a flat form factor 2, no screening,
    [q_perpsqr4 = 4], [P = 1/2] and [kj = 3] the wave-vector [q_perp] is 1
    and [Wijfg] goes from 5 to [5 + (2/1)^2 * 1/2 * 3 = 11]. *)
Lemma theta_update_never_decreases_witness :
  @Srcc.theta_update SI
    [ {| Srcc.a := 0; Srcc.b := 2 |}; {| Srcc.a := 2; Srcc.b := 2 |} ]
    [ {| Srcc.a := 0; Srcc.b := 0 |}; {| Srcc.a := 2; Srcc.b := 0 |} ]
    2 1 (1 / 2) 3 (Some 4) 5
  = Srcc.Value (Some 11) /\
  match @Srcc.theta_update SI
          [ {| Srcc.a := 0; Srcc.b := 2 |}; {| Srcc.a := 2; Srcc.b := 2 |} ]
          [ {| Srcc.a := 0; Srcc.b := 0 |}; {| Srcc.a := 2; Srcc.b := 0 |} ]
          2 1 (1 / 2) 3 (Some 4) 5 with
  | Srcc.Value (Some Wijfg') => 5 <= Wijfg'
  | _ => True
  end.
Proof.
  split; [|apply (@theta_update_never_decreases SI _ _ 2 1 (1 / 2) 3 5 (Some 4)); lra].
  assert (Hroot : sqrt 4 / 2 = 1).
  { replace 4 with (2 * 2) by lra. rewrite sqrt_square; lra. }
  assert (Hpi : 0 < pi) by apply PI_RGT_0.
  pose proof (lookup_ff_bracket [] []
                {| Srcc.a := 0; Srcc.b := 2 |} {| Srcc.a := 2; Srcc.b := 2 |}
                2 1 eq_refl) as HA.
  pose proof (lookup_ff_bracket [] []
                {| Srcc.a := 0; Srcc.b := 0 |} {| Srcc.a := 2; Srcc.b := 0 |}
                2 1 eq_refl) as HPI.
  simpl in HA, HPI.
  rewrite (@theta_update_regular SI _ _ 2 1 (1 / 2) 3 4 5 2 0).
  - do 2 f_equal. rewrite Hroot. unfold gsl_pow_2. field. lra.
  - lra.
  - rewrite Hroot, HA; [|repeat constructor; simpl; lra | lra].
    f_equal. unfold Srcc.interpolate. simpl. lra.
  - rewrite Hroot. change Srcc.lookup_PI with Srcc.lookup_ff.
    rewrite HPI; [|repeat constructor; simpl; lra | lra].
    f_equal. unfold Srcc.interpolate. simpl. lra.
  - lra.
  - rewrite Hroot.
    replace (2 * pi * e * e * 0 * 2 / (4 * pi * 1)) with 0 by (field; lra).
    lra.
Defined.

Lemma PI_is_not_negative_witness :
  match @Srcc.PI SI 3 lower_subband 1 300 with
  | Some v => 0 <= v
  | None => True
  end.
Proof. apply (@PI_is_not_negative SI lower_subband 300 3 1); simpl; lra. Defined.

Lemma PI_table_without_screening_witness :
  exists PIii,
    @Srcc.PI_table SI 0 [ {| Srcc.a := 0; Srcc.b := 2 |}; {| Srcc.a := 1; Srcc.b := 3 |} ]
      lower_subband 300 2 false = Some (Srcc.Value PIii) /\
    PIii = map (fun en => {| Srcc.a := Srcc.a en; Srcc.b := 0 |})
               [ {| Srcc.a := 0; Srcc.b := 2 |}; {| Srcc.a := 1; Srcc.b := 3 |} ] /\
    forall q_perp v, Srcc.lookup_PI PIii q_perp 2 = Srcc.Value v -> v = 0.
Proof. apply (@PI_table_without_screening SI lower_subband 300 0 _ 2). reflexivity. Defined.

Lemma PI_table_with_screening_witness :
  exists fuel PIii,
    @Srcc.PI_table SI fuel
      [ {| Srcc.a := 0; Srcc.b := 2 |}; {| Srcc.a := 1; Srcc.b := 3 |} ]
      lower_subband 300 2 true = Some (Srcc.Value PIii) /\
    map Srcc.a PIii
      = map Srcc.a [ {| Srcc.a := 0; Srcc.b := 2 |}; {| Srcc.a := 1; Srcc.b := 3 |} ] /\
    Forall (fun en => 0 <= Srcc.b en) PIii.
Proof.
  apply (@PI_table_with_screening SI lower_subband 300 _ 2);
    [lra | simpl; lra | reflexivity].
Defined.

Lemma uniform_grid_012 : Srcc.uniform_grid [0; 1; 2].
Proof.
  split; unfold rd; simpl; [lra|].
  intros i Hi. destruct i as [|[|[|i]]]; simpl in *; try lia; lra.
Qed.

Lemma exp_qz_is_at_least_one_witness :
  rd (Srcc.find_exp_qz 1 [0; 1; 2]) 0 = 1 /\
  1 <= rd (Srcc.find_exp_qz 1 [0; 1; 2]) 2.
Proof.
  apply (exp_qz_is_at_least_one 1 [0; 1; 2] 2); [simpl; lia | lra |].
  intros i Hi. unfold rd.
  destruct i as [|[|[|i]]]; simpl in *; try lia; lra.
Defined.

Lemma Iif_at_zero_wave_vector_witness :
  Srcc.Iif_fast [0; 1; 2] [1; 2; 3] 0 1
    = Rsum (map (fun iz => rd [1; 2; 3] iz * (rd [0; 1; 2] 1 - rd [0; 1; 2] 0))
                (seq 0 (length [0; 1; 2]))).
Proof. apply (Iif_at_zero_wave_vector [0; 1; 2] [1; 2; 3] 1); simpl; lia. Defined.

Lemma Iif_is_bounded_witness :
  Rabs (Srcc.Iif_fast [0; 1; 2] [1; -2; 3] 1 1)
    <= Rsum (map (fun iz => Rabs (rd [1; -2; 3] iz) * (rd [0; 1; 2] 1 - rd [0; 1; 2] 0))
                 (seq 0 (length [0; 1; 2]))).
Proof.
  apply (Iif_is_bounded [0; 1; 2] [1; -2; 3] 1 1);
    [simpl; lia | apply uniform_grid_012 | lra | simpl; lia].
Defined.

Lemma A_is_the_double_integral_witness :
  Srcc.A (fun _ _ => 1) 1 flat_state flat_state flat_state flat_state
    = (fun _ _ => 1)
        (map (fun iz =>
                rd (zip_with Rmult (Srcc.psi_array flat_state)
                                   (Srcc.psi_array flat_state)) iz
                * Srcc.Iif_bruteforce (Srcc.z_array flat_state)
                    (zip_with Rmult (Srcc.psi_array flat_state)
                                    (Srcc.psi_array flat_state)) 1 iz)
             (seq 0 (length (Srcc.z_array flat_state))))
        (rd (Srcc.z_array flat_state) 1 - rd (Srcc.z_array flat_state) 0).
Proof.
  apply (A_is_the_double_integral (fun _ _ => 1) 1
           flat_state flat_state flat_state flat_state);
    [simpl; lia | apply uniform_grid_012].
Defined.

Lemma dos_2D_parabolic_is_a_staircase_witness :
  @Dos.calculate_dos_2D SI 1 0 [1; 2] 0 0 <= @Dos.calculate_dos_2D SI 1 3 [1; 2] 0 0.
Proof. apply (@dos_2D_parabolic_is_a_staircase SI 1 0 3 [1; 2] 0); lra. Defined.

Lemma dos_1D_sums_subbands_below_witness :
  0 <= @Dos.calculate_dos_1D SI 1 3 [1; 2].
Proof.
  apply (@dos_1D_sums_subbands_below SI 1 3 [1; 2]). lra.
Defined.

Lemma screened_Kz_2_witness :
  Srelo.Kz_2_at single_sample [0; 2] 1
    = Some (gsl_pow_2 (rd [0; 2] 1 * rd [0; 2] 1 + Srelo.lambda_s_sq single_sample)
            / (rd [0; 2] 1 * rd [0; 2] 1)) /\
  (0 <= Srelo.lambda_s_sq single_sample ->
   rd [0; 2] 1 * rd [0; 2] 1
     <= gsl_pow_2 (rd [0; 2] 1 * rd [0; 2] 1 + Srelo.lambda_s_sq single_sample)
        / (rd [0; 2] 1 * rd [0; 2] 1)).
Proof.
  apply (screened_Kz_2 single_sample [0; 2] 1);
    [reflexivity | lia | unfold rd; simpl; lra].
Defined.

(** On [singular_sample], where [2 m Delta / hBar^2] is 1 for the mismatch
    [3/2], the integrand at the phonon wave-vector 1 divides by zero for
    [ki = 0] and is the number [1 / sqrt 4] for [ki = 1]. *)
Lemma phonon_integrand_pole_witness :
  @Srelo.integrand_dKz SI singular_sample [0; 1] [1; 1] 0 (3 / 2) 1 = None /\
  @Srelo.integrand_dKz SI singular_sample [0; 1] [1; 1] 1 (3 / 2) 1
    = Some (1 / sqrt 4).
Proof.
  assert (Hh : 0 < @hBar SI) by apply hBar_pos.
  assert (Hshift : 2 * Srelo.m singular_sample * (3 / 2) / (@hBar SI * @hBar SI) = 1).
  { change (Srelo.m singular_sample) with (@hBar SI * @hBar SI / 3). field. lra. }
  destruct (@phonon_integrand_pole SI singular_sample [0; 1] [1; 1] 0 (3 / 2)
              1%nat (1 * 1) eq_refl) as (Hsq0 & _ & _ & _ & Hpole).
  destruct (@phonon_integrand_pole SI singular_sample [0; 1] [1; 1] 1 (3 / 2)
              1%nat (1 * 1) eq_refl) as (Hsq1 & _ & _ & Hnum & _).
  rewrite Hshift in Hsq0, Hsq1. unfold gsl_pow_2 in Hsq0, Hsq1.
  split.
  - apply Hpole. rewrite Hsq0. ring.
  - rewrite Hnum by (rewrite Hsq1; lra).
    rewrite Hsq1.
    replace ((1 * 1 - 1) * (1 * 1 - 1) + 4 * (1 * 1) * 1 * 1) with 4 by ring.
    reflexivity.
Defined.

Lemma blocking_scales_rates_down_witness :
  exists ca ce,
    0 <= ca <= 1 /\ 0 <= ce <= 1 /\
    fst (@Srelo.rates_at SI (fun _ _ => 1) (with_blocking single_sample true)
           lower_subband upper_subband [0] [1] 2)
      = (fun W => W * ca)
          <$> fst (@Srelo.rates_at SI (fun _ _ => 1)
                     (with_blocking single_sample false)
                     lower_subband upper_subband [0] [1] 2) /\
    snd (@Srelo.rates_at SI (fun _ _ => 1) (with_blocking single_sample true)
           lower_subband upper_subband [0] [1] 2)
      = (fun W => W * ce)
          <$> snd (@Srelo.rates_at SI (fun _ _ => 1)
                     (with_blocking single_sample false)
                     lower_subband upper_subband [0] [1] 2).
Proof.
  apply (@blocking_scales_rates_down SI (fun _ _ => 1) single_sample
           lower_subband upper_subband [0] [1] 2).
  intros kf T. simpl. lra.
Defined.

(** ** The corner of the quadrature *)

Section Corner.
Import Srcc.
Context {C : Constants}.

(** X12. The sample of the quadrature with [kij = kimax + kjmax] and
    [theta = pi] asks for exactly [q_perp_max], the wave-vector of the last
    entry of the form-factor table: the lookup passes the range test and
    reads the entry after the last one. *)
Theorem corner_sample_reads_past_table (Aijfg PIii : list data11) (nq : nat)
    (lst : data11) (kimax kjmax epsilon Deltak0sqr P kj Wijfg q_max : R) :
  length Aijfg = nq -> increasing Aijfg -> last Aijfg = Some lst ->
  q_perp_max kimax kjmax Deltak0sqr = Some q_max -> a lst = q_max ->
  0 <= kimax + kjmax ->
  theta_step Aijfg PIii nq epsilon Deltak0sqr P kj (kimax + kjmax)
             Rtrigo1.PI Wijfg
    = OutOfBounds.
Proof.
  intros Hlen Hinc Hlast Hmax Hlst HK.
  unfold q_perp_max, c_sqrt in Hmax. unfold gsl_pow_2 in Hmax.
  set (K := kimax + kjmax) in *.
  destruct (dle 0 (K * K + Deltak0sqr)) eqn:H1; simpl in Hmax; [|discriminate].
  destruct (dle 0 (2 * (K * K) + Deltak0sqr
                   + 2 * K * sqrt (K * K + Deltak0sqr))) eqn:H2;
    simpl in Hmax; [|discriminate].
  apply dle_spec in H1, H2. injection Hmax as Hmax.
  unfold theta_step, q_perpsqr4. rewrite (c_sqrt_nonneg _ H1). simpl.
  rewrite cos_PI.
  replace (2 * K * K + Deltak0sqr - 2 * K * sqrt (K * K + Deltak0sqr) * -1)
    with (2 * (K * K) + Deltak0sqr + 2 * K * sqrt (K * K + Deltak0sqr)) by ring.
  destruct (dge _ 0) eqn:H3; [|apply dge_false in H3; lra].
  rewrite (c_sqrt_nonneg _ H2). rewrite Hmax, <- Hlst.
  now rewrite (lookup_ff_at_last Aijfg nq lst Hlen Hinc Hlast).
Qed.

End Corner.

Lemma corner_sample_reads_past_table_witness :
  @Srcc.theta_step SI
    [ {| Srcc.a := -1; Srcc.b := 1 |}; {| Srcc.a := q_max_of_flat_state; Srcc.b := 1 |} ]
    [ {| Srcc.a := -1; Srcc.b := 0 |}; {| Srcc.a := q_max_of_flat_state; Srcc.b := 0 |} ]
    2 1 0 1 1 (1 + 1) Rtrigo1.PI 5
  = Srcc.OutOfBounds.
Proof.
  apply (@corner_sample_reads_past_table SI _ _ 2
           {| Srcc.a := q_max_of_flat_state; Srcc.b := 1 |} 1 1 1 0 1 1 5
           q_max_of_flat_state);
    try reflexivity; [| apply q_perp_max_of_flat_state | lra].
  repeat constructor. simpl. unfold q_max_of_flat_state.
  pose proof (sqrt_pos (2 * gsl_pow_2 (1 + 1) + 0
                        + 2 * (1 + 1) * sqrt (gsl_pow_2 (1 + 1) + 0))). lra.
Defined.

(** ** The pre-factors, the screening length and the cutoff of srelo *)

Section PhononSetup.
Import Srelo.
Context {C : Constants}.
Variable cfg : setup.
Variables isb fsb : Subband.

(** Positivity of a product of positive factors, factor by factor. *)
Ltac prod_pos :=
  repeat match goal with
         | |- 0 < _ * _ => apply Rmult_lt_0_compat
         end;
  try assumption.

Lemma pi_pos : 0 < pi.
Proof. unfold pi. exact PI_RGT_0. Qed.

Lemma N0_pos (Tl : R) : 0 < Ephonon cfg -> 0 < Tl -> 0 < N0 cfg Tl.
Proof.
  intros HE HT. unfold N0. pose proof kB_pos.
  assert (0 < Ephonon cfg / (kB * Tl)) by (apply Rdiv_lt_0_compat; nra).
  pose proof (exp_ineq1_le (Ephonon cfg / (kB * Tl))).
  apply Rdiv_lt_0_compat; lra.
Qed.

(** X27. Detailed balance: for a phonon energy and a lattice temperature that
    are positive, the emission pre-factor is the absorption pre-factor
    times the Boltzmann factor [exp(Ephonon/(kB Tl))]. *)
Theorem emission_over_absorption (epsilon_s epsilon_inf Tl : R) :
  0 < Ephonon cfg -> 0 < Tl ->
  Upsilon_star_e_of cfg epsilon_s epsilon_inf Tl
    = Upsilon_star_a_of cfg epsilon_s epsilon_inf Tl
      * exp (Ephonon cfg / (kB * Tl)).
Proof.
  intros HE HT. unfold Upsilon_star_e_of, Upsilon_star_a_of, Upsilon_star.
  assert (HN : N0 cfg Tl + 1 = N0 cfg Tl * exp (Ephonon cfg / (kB * Tl))).
  { unfold N0. pose proof kB_pos.
    assert (0 < Ephonon cfg / (kB * Tl)) by (apply Rdiv_lt_0_compat; nra).
    pose proof (exp_ineq1_le (Ephonon cfg / (kB * Tl))).
    field. lra. }
  rewrite HN. unfold Rdiv. ring.
Qed.

(** X28. Both pre-factors are positive, the emission one the larger, when the
    static permittivity exceeds the high-frequency one. *)
Theorem prefactors_are_positive (epsilon_s epsilon_inf Tl : R) :
  0 < Ephonon cfg -> 0 < Tl -> 0 < m cfg ->
  0 < epsilon_inf < epsilon_s ->
  0 < Upsilon_star_a_of cfg epsilon_s epsilon_inf Tl
    < Upsilon_star_e_of cfg epsilon_s epsilon_inf Tl.
Proof.
  intros HE HT Hm [Hinf Hs].
  pose proof (N0_pos Tl HE HT) as HN.
  unfold Upsilon_star_e_of, Upsilon_star_a_of, Upsilon_star.
  set (N := N0 cfg Tl) in *.
  pose proof pi_pos as Hpi. pose proof hBar_pos as Hh. pose proof e_pos as He.
  assert (Hratio : 0 < epsilon_s / epsilon_inf - 1).
  { assert (1 < epsilon_s / epsilon_inf); [|lra].
    apply (Rmult_lt_reg_r epsilon_inf); [exact Hinf|].
    unfold Rdiv. rewrite Rmult_assoc, Rinv_l; lra. }
  set (c := pi * e * e * (Ephonon cfg / hBar) / epsilon_s
            * (epsilon_s / epsilon_inf - 1)).
  assert (Hc : 0 < c).
  { unfold c. apply Rmult_lt_0_compat; [|exact Hratio].
    apply Rdiv_lt_0_compat; [|lra].
    assert (0 < Ephonon cfg / hBar) by now apply Rdiv_lt_0_compat.
    prod_pos. }
  set (t := 2 * m cfg / gsl_pow_2 hBar * 2 / (8 * pi * pi * pi)).
  assert (Ht : 0 < t).
  { unfold t, gsl_pow_2. apply Rdiv_lt_0_compat.
    - apply Rmult_lt_0_compat; [|lra]. apply Rdiv_lt_0_compat; nra.
    - assert (0 < 8) by lra. prod_pos. }
  assert (Hct : 0 < c * t) by now apply Rmult_lt_0_compat.
  replace (c * N * 2 * m cfg / gsl_pow_2 hBar * 2 / (8 * pi * pi * pi))
    with (c * t * N) by (unfold t, Rdiv; ring).
  replace (c * (N + 1) * 2 * m cfg / gsl_pow_2 hBar * 2 / (8 * pi * pi * pi))
    with (c * t * N + c * t) by (unfold t, Rdiv; ring).
  split; [apply Rmult_lt_0_compat; assumption | lra].
Qed.

(** X29. The screening length squared is not negative when the mass, the
    subband minima and the occupations are not negative and the static
    permittivity is positive; with screening switched off it is 0. *)
Theorem lambda_s_sq_is_not_negative (f_FD : Subband -> R -> R -> R)
    (epsilon_s : R) (subbands : list Subband) :
  0 <= m cfg -> 0 < epsilon_s ->
  Forall (fun jsb => 0 <= get_E jsb /\ 0 <= f_FD jsb (get_E jsb) (Te cfg)) subbands ->
  0 <= lambda_s_sq_of cfg f_FD epsilon_s subbands /\
  (S_flag cfg = false -> lambda_s_sq_of cfg f_FD epsilon_s subbands = 0).
Proof.
  intros Hm Heps Hall. unfold lambda_s_sq_of.
  destruct (S_flag cfg); [|split; [lra | reflexivity]].
  split; [|discriminate].
  apply Rmult_le_pos.
  - assert (Hgen : forall acc, 0 <= acc ->
              0 <= foldl (fun lambda_s_sq jsb =>
                     lambda_s_sq + sqrt (2 * m cfg * get_E jsb) * m cfg
                                   * f_FD jsb (get_E jsb) (Te cfg)) acc subbands).
    { induction Hall as [|jsb rest [HE Hf] _ IH]; intros acc Hacc; simpl;
        [exact Hacc|].
      apply IH. pose proof (sqrt_pos (2 * m cfg * get_E jsb)).
      assert (0 <= sqrt (2 * m cfg * get_E jsb) * m cfg) by now apply Rmult_le_pos.
      assert (0 <= sqrt (2 * m cfg * get_E jsb) * m cfg
                   * f_FD jsb (get_E jsb) (Te cfg)) by now apply Rmult_le_pos.
      lra. }
    apply Hgen. lra.
  - pose proof pi_pos. pose proof hBar_pos. pose proof e_pos.
    apply quotient_nonneg; [nra|]. prod_pos.
Qed.

(** X30. Without a cutoff option, for a positive mass and an initial subband
    minimum that is not negative, the cutoff chosen reaches the final
    subband: [Ecutoff + Ei >= Ef]; and it is at least the kinetic energy of
    [k_max] when the final minimum is not negative. *)
Theorem default_cutoff_reaches_final_subband (k_max : R) :
  0 < m cfg -> 0 <= get_E isb ->
  get_E fsb <= Ecutoff_of cfg isb fsb None k_max + get_E isb /\
  (0 <= get_E fsb ->
     hBar * hBar * k_max * k_max / (2 * m cfg) <= Ecutoff_of cfg isb fsb None k_max).
Proof.
  intros Hm HEi. unfold Ecutoff_of.
  assert (Hkin : 0 <= hBar * hBar * k_max * k_max / (2 * m cfg)).
  { apply quotient_nonneg; [|lra].
    pose proof (Rle_0_sqr (hBar * k_max)) as Hsq. unfold Rsqr in Hsq. nra. }
  destruct (dlt _ _) eqn:Hext;
    [apply dlt_spec in Hext | apply dlt_false in Hext]; split; intros; lra.
Qed.

End PhononSetup.

Lemma emission_over_absorption_witness :
  @Srelo.Upsilon_star_e_of SI single_sample 13 11 300
    = @Srelo.Upsilon_star_a_of SI single_sample 13 11 300
      * exp (Srelo.Ephonon single_sample / (@kB SI * 300)).
Proof.
  apply (@emission_over_absorption SI single_sample 13 11 300); simpl; lra.
Defined.

Lemma prefactors_are_positive_witness :
  0 < @Srelo.Upsilon_star_a_of SI single_sample 13 11 300
    < @Srelo.Upsilon_star_e_of SI single_sample 13 11 300.
Proof.
  apply (@prefactors_are_positive SI single_sample 13 11 300); simpl; lra.
Defined.

Lemma lambda_s_sq_is_not_negative_witness :
  0 <= @Srelo.lambda_s_sq_of SI single_sample (fun _ _ _ => 1 / 2) 13
         [lower_subband; upper_subband].
Proof.
  apply (@lambda_s_sq_is_not_negative SI single_sample (fun _ _ _ => 1 / 2) 13
           [lower_subband; upper_subband]); simpl; try lra.
  repeat constructor; simpl; lra.
Defined.

Lemma default_cutoff_reaches_final_subband_witness :
  get_E upper_subband
    <= @Srelo.Ecutoff_of SI single_sample lower_subband upper_subband None 0
       + get_E lower_subband.
Proof.
  apply (@default_cutoff_reaches_final_subband SI single_sample
           lower_subband upper_subband 0); simpl; lra.
Defined.
